(** * Iterators: a shallow embedding of [src/iterators]

    The repository offers Elixir-style combinators over JavaScript
    iterables, as generators ([streams.ts], [streams.js]) and in an older
    file ([lists.js]).  A finite iterable is a [list]; a generator that
    is drained by [for ... of] or by spreading is the list of the values
    it yields, in order.  Every [for (const item of iterable)] loop
    becomes a structural recursion over that list whose extra arguments
    are the loop's local variables.  Module [Pull] gives [take] a second
    time, one [next()] call at a time, to count what it asks of its
    source.

    Numbers are integers ([Z]; loop counters, which start at 0 and only
    grow, are [nat]).  Floating point, objects and strings are outside
    the model. *)

From Stdlib Require Import List ZArith Lia Bool Arith PeanoNat Permutation Sorted.
Import ListNotations.
Local Open Scope Z_scope.

(** ** JavaScript values *)

Module JS.

(** The primitive values the operators can tell apart.  [VUndefined] is
    what an omitted argument and an unset [let] hold. *)
Inductive value : Type :=
| VUndefined
| VNull
| VBool (b : bool)
| VNum (z : Z)
| VNaN.

(** [a === b] *)
Definition strict_eq (a b : value) : bool :=
  match a, b with
  | VUndefined, VUndefined => true
  | VNull, VNull => true
  | VBool x, VBool y => Bool.eqb x y
  | VNum x, VNum y => x =? y
  | _, _ => false
  end.

(** [a !== b] *)
Definition strict_neq (a b : value) : bool := negb (strict_eq a b).

(** ToBoolean, as used by [if (v)] and [v ? _ : _]. *)
Definition truthy (v : value) : bool :=
  match v with
  | VUndefined | VNull | VNaN => false
  | VBool b => b
  | VNum z => negb (z =? 0)
  end.

(** ToNumber; [None] stands for NaN. *)
Definition to_number (v : value) : option Z :=
  match v with
  | VUndefined | VNaN => None
  | VNull => Some 0
  | VBool b => Some (if b then 1 else 0)
  | VNum z => Some z
  end.

(** [a <= b]: both sides are converted to numbers, and a comparison
    with NaN is false. *)
Definition le (a b : value) : bool :=
  match to_number a, to_number b with
  | Some x, Some y => x <=? y
  | _, _ => false
  end.

Inductive error : Type := InvalidArgument | TypeError.

(** How a call ends: with a value, or by throwing. *)
Inductive completion (A : Type) : Type :=
| Normal (v : A)
| Throw (e : error).
Arguments Normal {A} v.
Arguments Throw {A} e.

(** [i % step === 0] for a counter [i >= 0]: the remainder has the sign
    of the dividend, and [i % 0] is NaN, which is not [=== 0]. *)
Definition divides (step : Z) (i : nat) : bool :=
  if step =? 0 then false else Z.rem (Z.of_nat i) step =? 0.

(** [currents[currents.length - 1]]: [undefined] on the empty array. *)
Definition last_window {T : Type} (currents : list (list T)) : option (list T) :=
  match currents with
  | [] => None
  | _ :: _ => nth_error currents (length currents - 1)
  end.

(** [for (const current of currents) current.push(item)] *)
Definition push_all {T : Type} (item : T) (currents : list (list T)) : list (list T) :=
  List.map (fun current => current ++ [item]) currents.

End JS.

(** ** The built-in [Map] *)

Module JSMap.
Import JS.

(** SameValueZero, the comparison [Map] makes on keys: [===], except
    that NaN is the same key as NaN. *)
Definition same_value_zero (a b : value) : bool :=
  match a, b with
  | VNaN, VNaN => true
  | _, _ => strict_eq a b
  end.

(** The entries of a [Map], in insertion order. *)
Definition t (V : Type) : Type := list (value * V).

(** [new Map()] *)
Definition empty {V : Type} : t V := [].

(** [map.get(key)]; [None] is [undefined]. *)
Fixpoint get {V : Type} (map : t V) (key : value) : option V :=
  match map with
  | [] => None
  | (k, v) :: rest => if same_value_zero k key then Some v else get rest key
  end.

(** [map.set(key, v)]: the entry of an existing key keeps its place, a
    new key goes last. *)
Fixpoint set {V : Type} (map : t V) (key : value) (v : V) : t V :=
  match map with
  | [] => [(key, v)]
  | (k, v0) :: rest =>
      if same_value_zero k key then (k, v) :: rest
      else (k, v0) :: set rest key v
  end.

End JSMap.

(** ** [streams.ts] and [streams.js]

    The two files hold the same code, with and without type annotations;
    [take] is in [streams.js] only. *)

Module Streams.
Import JS.

(** What draining a generator shows: the values it yielded, and the value
    its body returned, which [for ... of] and spreading discard. *)
Record generator_run (Y R : Type) : Type :=
  { yielded : list Y; returned : R }.
Arguments yielded {Y R} _.
Arguments returned {Y R} _.

Section Generic.
Context {T : Type}.

(** [empty]: the loop body returns at the first element. *)
Definition empty (iterable : list T) : bool :=
  match iterable with
  | [] => true
  | _ :: _ => false
  end.

(** [filter]: [if (fun(item)) yield item] *)
Fixpoint filter (iterable : list T) (fun_ : T -> value) : list T :=
  match iterable with
  | [] => []
  | item :: rest =>
      if truthy (fun_ item) then item :: filter rest fun_
      else filter rest fun_
  end.

(** [reject]: [filter(iterable, (x) => !fun(x))] *)
Definition reject (iterable : list T) (fun_ : T -> value) : list T :=
  filter iterable (fun x => VBool (negb (truthy (fun_ x)))).

(** [all]: [empty(reject(iterable, fun))] *)
Definition all (iterable : list T) (fun_ : T -> value) : bool :=
  empty (reject iterable fun_).

(** [any]: [!empty(filter(iterable, fun))] *)
Definition any (iterable : list T) (fun_ : T -> value) : bool :=
  negb (empty (filter iterable fun_)).

(** [concat]: [for (const item of iterable) yield* item] *)
Fixpoint concat (iterable : list (list T)) : list T :=
  match iterable with
  | [] => []
  | item :: rest => item ++ concat rest
  end.

(** [drop]: [if (count++ >= n) yield item] *)
Fixpoint drop_loop (n : Z) (count : nat) (iterable : list T) : list T :=
  match iterable with
  | [] => []
  | item :: rest =>
      if Z.of_nat count >=? n then item :: drop_loop n (S count) rest
      else drop_loop n (S count) rest
  end.

Definition drop (iterable : list T) (n : Z) : list T :=
  drop_loop n 0 iterable.

(** [take]: [if (count++ >= n) break; yield item] *)
Fixpoint take_loop (n : Z) (count : nat) (iterable : list T) : list T :=
  match iterable with
  | [] => []
  | item :: rest =>
      if Z.of_nat count >=? n then []
      else item :: take_loop n (S count) rest
  end.

Definition take (iterable : list T) (n : Z) : list T :=
  take_loop n 0 iterable.

(** [dedup]: [lastValue] starts as [undefined]; an item is yielded, and
    its key remembered, when [value !== lastValue]. *)
Fixpoint dedup_loop (fun_ : T -> value) (lastValue : value)
         (iterable : list T) : list T :=
  match iterable with
  | [] => []
  | item :: rest =>
      let value := fun_ item in
      if strict_neq value lastValue then item :: dedup_loop fun_ value rest
      else dedup_loop fun_ lastValue rest
  end.

Definition dedup (iterable : list T) (fun_ : T -> value) : list T :=
  dedup_loop fun_ VUndefined iterable.

(** [chunkEvery]: the loop's variables. [currents] holds the open
    windows, the most recently opened one first ([unshift]). *)
Record windows : Type := { currents : list (list T); i : nat }.

(** One turn of the loop: the chunk it yields, if any, and the variables
    afterwards.  A yielded array is popped from [currents] before the
    next [push], so no chunk changes after it was yielded. *)
Definition chunk_step (count step : Z) (st : windows) (item : T)
  : list (list T) * windows :=
  let cs := if divides step (i st) then [] :: currents st else currents st in
  let cs := push_all item cs in
  match last_window cs with
  | Some w =>
      if Z.of_nat (length w) =? count
      then ([w], {| currents := removelast cs; i := S (i st) |})
      else ([], {| currents := cs; i := S (i st) |})
  | None => ([], {| currents := cs; i := S (i st) |})
  end.

(** The first loop: everything yielded while the source lasts. *)
Fixpoint chunk_run (count step : Z) (st : windows) (iterable : list T)
  : list (list T) * windows :=
  match iterable with
  | [] => ([], st)
  | item :: rest =>
      let (ys, st1) := chunk_step count step st item in
      let (zs, st2) := chunk_run count step st1 rest in
      (ys ++ zs, st2)
  end.

(** [chunkEvery(iterable, count, step = count)]; after the first loop,
    [for (const current of currents) yield current]. *)
Definition chunkEvery (iterable : list T) (count : Z) (step : option Z)
  : list (list T) :=
  let step := match step with Some s => s | None => count end in
  let (ys, st) := chunk_run count step {| currents := []; i := 0 |} iterable in
  ys ++ currents st.

End Generic.

(** [map]: [yield fun(item)] *)
Fixpoint map {T U : Type} (iterable : list T) (fun_ : T -> U) : list U :=
  match iterable with
  | [] => []
  | item :: rest => fun_ item :: map rest fun_
  end.

(** [dropEvery] is declared [function*] and its body is the single
    statement [return concat(map(chunkEvery(iterable, n), (it) =>
    drop(it, 1)))]: it yields nothing, and the composed generator is its
    return value. *)
Definition dropEvery {T : Type} (iterable : list T) (n : Z)
  : generator_run T (list T) :=
  {| yielded := [];
     returned := concat (map (chunkEvery iterable n None) (fun it => drop it 1)) |}.

(** [reduce]: [acc] starts as [initial], which is [undefined] when the
    argument is omitted; [if (acc === undefined) acc = item; else acc =
    fun(acc, item)]. *)
Fixpoint reduce_loop (fun_ : value -> value -> value) (acc : value)
         (iterable : list value) : value :=
  match iterable with
  | [] => acc
  | item :: rest =>
      if strict_eq acc VUndefined then reduce_loop fun_ item rest
      else reduce_loop fun_ (fun_ acc item) rest
  end.

Definition reduce (iterable : list value) (fun_ : value -> value -> value)
           (initial : value) : value :=
  reduce_loop fun_ initial iterable.

(** The default comparator, [(a, b) => a <= b]. *)
Definition sorter_or_default (sorter : option (value -> value -> bool))
  : value -> value -> bool :=
  match sorter with Some s => s | None => le end.

(** [max]: [reduce(iterable, (a, b) => (sorter(a, b) ? b : a))] *)
Definition max (iterable : list value) (sorter : option (value -> value -> bool))
  : value :=
  let sorter := sorter_or_default sorter in
  reduce iterable (fun a b => if sorter a b then b else a) VUndefined.

(** [min]: [reduce(iterable, (a, b) => (sorter(a, b) ? a : b))] *)
Definition min (iterable : list value) (sorter : option (value -> value -> bool))
  : value :=
  let sorter := sorter_or_default sorter in
  reduce iterable (fun a b => if sorter a b then a else b) VUndefined.

(** [maxBy]: [reduce(iterable, (a, b) => (sorter(fun(a), fun(b)) ? a : b))] *)
Definition maxBy (iterable : list value) (fun_ : value -> value)
           (sorter : option (value -> value -> bool)) : value :=
  let sorter := sorter_or_default sorter in
  reduce iterable (fun a b => if sorter (fun_ a) (fun_ b) then a else b) VUndefined.

(** [minBy]: [reduce(iterable, (a, b) => (sorter(fun(a), fun(b)) ? a : b))] *)
Definition minBy (iterable : list value) (fun_ : value -> value)
           (sorter : option (value -> value -> bool)) : value :=
  let sorter := sorter_or_default sorter in
  reduce iterable (fun a b => if sorter (fun_ a) (fun_ b) then a else b) VUndefined.

(** Calling a generator function binds the parameters and returns a
    suspended generator: no statement of the body runs before the first
    [next()].  The bodies of [chunkEvery], [dropEvery], [take] and [drop]
    hold no [throw] and no test of [count], [step] or [n] outside the
    loop.  The generator is given by what it yields when drained. *)
Definition chunkEvery_call {T : Type} (iterable : list T) (count : Z)
           (step : option Z) : completion (list (list T)) :=
  Normal (chunkEvery iterable count step).

Definition dropEvery_call {T : Type} (iterable : list T) (n : Z)
  : completion (list T) :=
  Normal (yielded (dropEvery iterable n)).

Definition take_call {T : Type} (iterable : list T) (n : Z)
  : completion (list T) :=
  Normal (take iterable n).

Definition drop_call {T : Type} (iterable : list T) (n : Z)
  : completion (list T) :=
  Normal (drop iterable n).

Section More.
Context {T : Type}.

(** [at]: [if (count++ === n) return item], and [defaultValue] after the
    loop. *)
Fixpoint at_loop (n : Z) (count : nat) (defaultValue : T) (iterable : list T) : T :=
  match iterable with
  | [] => defaultValue
  | item :: rest =>
      if Z.of_nat count =? n then item
      else at_loop n (S count) defaultValue rest
  end.

Definition at_ (iterable : list T) (n : Z) (defaultValue : T) : T :=
  at_loop n 0 defaultValue iterable.

(** [chunkBy]: [current] and [lastValue] are the loop's variables; after
    a yield [current] is a new array, so a yielded chunk does not change. *)
Fixpoint chunkBy_loop (fun_ : T -> value) (current : list T) (lastValue : value)
         (iterable : list T) : list (list T) :=
  match iterable with
  | [] => if (0 <? length current)%nat then [current] else []
  | item :: rest =>
      let value := fun_ item in
      if strict_neq value lastValue
      then (if (0 <? length current)%nat then [current] else [])
             ++ chunkBy_loop fun_ [item] value rest
      else chunkBy_loop fun_ (current ++ [item]) lastValue rest
  end.

Definition chunkBy (iterable : list T) (fun_ : T -> value) : list (list T) :=
  chunkBy_loop fun_ [] VUndefined iterable.

(** [count]: [if (fun(element)) count++] *)
Fixpoint count_loop (fun_ : T -> value) (count : nat) (iterable : list T) : nat :=
  match iterable with
  | [] => count
  | element :: rest =>
      if truthy (fun_ element) then count_loop fun_ (S count) rest
      else count_loop fun_ count rest
  end.

Definition count (iterable : list T) (fun_ : T -> value) : nat :=
  count_loop fun_ 0 iterable.

(** [dropWhile]: [if (dropping && fun(item)) continue; dropping = false;
    yield item] *)
Fixpoint dropWhile_loop (fun_ : T -> value) (dropping : bool)
         (iterable : list T) : list T :=
  match iterable with
  | [] => []
  | item :: rest =>
      if dropping && truthy (fun_ item) then dropWhile_loop fun_ dropping rest
      else item :: dropWhile_loop fun_ false rest
  end.

Definition dropWhile (iterable : list T) (fun_ : T -> value) : list T :=
  dropWhile_loop fun_ true iterable.

(** [find]: [if (fun(item)) return item], and [defaultValue] after the
    loop. *)
Fixpoint find (iterable : list T) (fun_ : T -> value) (defaultValue : T) : T :=
  match iterable with
  | [] => defaultValue
  | item :: rest =>
      if truthy (fun_ item) then item else find rest fun_ defaultValue
  end.

(** [findIndex]: [if (fun(item)) return count; count++]; the function
    ends without a [return] when nothing matches, which gives
    [undefined] ([None]). *)
Fixpoint findIndex_loop (fun_ : T -> value) (count : nat) (iterable : list T)
  : option nat :=
  match iterable with
  | [] => None
  | item :: rest =>
      if truthy (fun_ item) then Some count
      else findIndex_loop fun_ (S count) rest
  end.

Definition findIndex (iterable : list T) (fun_ : T -> value) : option nat :=
  findIndex_loop fun_ 0 iterable.

(** [findValue]: [const value = fun(item); if (value) return value] *)
Fixpoint findValue (iterable : list T) (fun_ : T -> value) (defaultValue : value)
  : value :=
  match iterable with
  | [] => defaultValue
  | item :: rest =>
      let value := fun_ item in
      if truthy value then value else findValue rest fun_ defaultValue
  end.

(** [flatMap]: [yield* fun(item)] *)
Fixpoint flatMap {U : Type} (iterable : list T) (fun_ : T -> list U) : list U :=
  match iterable with
  | [] => []
  | item :: rest => fun_ item ++ flatMap rest fun_
  end.

(** [frequencies]: [const count = map.get(value) || 0; map.set(value,
    count + 1)].  A stored count is at least 1, so [||] only replaces
    [undefined]. *)
Fixpoint frequencies_loop (fun_ : T -> value) (map : JSMap.t nat)
         (iterable : list T) : JSMap.t nat :=
  match iterable with
  | [] => map
  | item :: rest =>
      let value := fun_ item in
      let count := match JSMap.get map value with Some c => c | None => 0%nat end in
      frequencies_loop fun_ (JSMap.set map value (count + 1)%nat) rest
  end.

Definition frequencies (iterable : list T) (fun_ : T -> value) : JSMap.t nat :=
  frequencies_loop fun_ JSMap.empty iterable.

(** [groupBy]: [const list = map.get(key) || []; list.push(value_fun(item));
    map.set(key, list)].  An array is truthy, so [||] only replaces
    [undefined]; the array pushed on is the one the map holds, and nothing
    else refers to it before the map is returned. *)
Fixpoint groupBy_loop {V : Type} (key_fun : T -> value) (value_fun : T -> V)
         (map : JSMap.t (list V)) (iterable : list T) : JSMap.t (list V) :=
  match iterable with
  | [] => map
  | item :: rest =>
      let key := key_fun item in
      let list := match JSMap.get map key with Some l => l | None => [] end in
      groupBy_loop key_fun value_fun (JSMap.set map key (list ++ [value_fun item])) rest
  end.

Definition groupBy {V : Type} (iterable : list T) (key_fun : T -> value)
           (value_fun : T -> V) : JSMap.t (list V) :=
  groupBy_loop key_fun value_fun JSMap.empty iterable.

(** [intersperse]: [if (first) first = false; else yield separator;
    yield item] *)
Fixpoint intersperse_loop (separator : T) (first : bool) (iterable : list T)
  : list T :=
  match iterable with
  | [] => []
  | item :: rest =>
      if first then item :: intersperse_loop separator false rest
      else separator :: item :: intersperse_loop separator false rest
  end.

Definition intersperse (iterable : list T) (separator : T) : list T :=
  intersperse_loop separator true iterable.

(** [mapEvery]: [if (++count % n === 0) yield fun(item); else yield item] *)
Fixpoint mapEvery_loop (n : Z) (fun_ : T -> T) (count : nat) (iterable : list T)
  : list T :=
  match iterable with
  | [] => []
  | item :: rest =>
      if divides n (S count) then fun_ item :: mapEvery_loop n fun_ (S count) rest
      else item :: mapEvery_loop n fun_ (S count) rest
  end.

Definition mapEvery (iterable : list T) (n : Z) (fun_ : T -> T) : list T :=
  mapEvery_loop n fun_ 0 iterable.

(** [mapIntersperse]: as [intersperse], with [yield fun(item)] *)
Fixpoint mapIntersperse_loop {U : Type} (fun_ : T -> U) (separator : U)
         (first : bool) (iterable : list T) : list U :=
  match iterable with
  | [] => []
  | item :: rest =>
      if first then fun_ item :: mapIntersperse_loop fun_ separator false rest
      else separator :: fun_ item :: mapIntersperse_loop fun_ separator false rest
  end.

Definition mapIntersperse {U : Type} (iterable : list T) (fun_ : T -> U)
           (separator : U) : list U :=
  mapIntersperse_loop fun_ separator true iterable.

End More.

(** [member]: [if (item === element) return true] *)
Fixpoint member (iterable : list value) (element : value) : bool :=
  match iterable with
  | [] => false
  | item :: rest => if strict_eq item element then true else member rest element
  end.

(** [reduce] over arrays, as [minMax] calls it: the items
    [[x, x]] and the results of their folding function are array
    literals, and an array is never [=== undefined]; so [acc] is
    [undefined] ([None]) until the first item, and an array from then
    on. *)
Fixpoint reduce_arrays {A : Type} (fun_ : A -> A -> A) (acc : option A)
         (iterable : list A) : option A :=
  match iterable with
  | [] => acc
  | item :: rest =>
      match acc with
      | None => reduce_arrays fun_ (Some item) rest
      | Some a => reduce_arrays fun_ (Some (fun_ a item)) rest
      end
  end.

(** [minMax]: [reduce(map(iterable, (x) => [x, x]), ([min, max], [item,
    _item]) => [sorter(item, min) ? item : min, sorter(item, max) ? max :
    item])] *)
Definition minMax (iterable : list value) (sorter : option (value -> value -> bool))
  : option (value * value) :=
  let sorter := sorter_or_default sorter in
  reduce_arrays
    (fun acc pair =>
       let '(min, max) := acc in
       let '(item, _item) := pair in
       (if sorter item min then item else min,
        if sorter item max then max else item))
    None
    (map iterable (fun x => (x, x))).

End Streams.

(** ** [lists.js] *)

Module Lists.
Import JS.

Section Generic.
Context {T : Type}.

(** [all]: [if (!fun(element)) return false] *)
Fixpoint all (iterable : list T) (fun_ : T -> value) : bool :=
  match iterable with
  | [] => true
  | element :: rest => if negb (truthy (fun_ element)) then false else all rest fun_
  end.

(** [any]: [if (fun(element)) return true] *)
Fixpoint any (iterable : list T) (fun_ : T -> value) : bool :=
  match iterable with
  | [] => false
  | element :: rest => if truthy (fun_ element) then true else any rest fun_
  end.

(** [chunkEvery]: as in [streams.ts], but the test reads
    [currents[currents.length - 1].length] without [?.], which throws a
    TypeError when no window is open.  The result is what was yielded and
    the error that ended the generator, if one did. *)
Fixpoint chunk_loop (count step : Z) (currents : list (list T)) (i : nat)
         (iterable : list T) : list (list T) * option error :=
  match iterable with
  | [] => (currents, None)
  | item :: rest =>
      let cs := if divides step i then [] :: currents else currents in
      let cs := push_all item cs in
      match last_window cs with
      | None => ([], Some TypeError)
      | Some w =>
          if Z.of_nat (length w) =? count
          then let (ys, e) := chunk_loop count step (removelast cs) (S i) rest in
               (w :: ys, e)
          else chunk_loop count step cs (S i) rest
      end
  end.

Definition chunkEvery (iterable : list T) (count : Z) (step : option Z)
  : list (list T) * option error :=
  let step := match step with Some s => s | None => count end in
  chunk_loop count step [] 0 iterable.

(** [dedup]: the same loop as in [streams.ts]. *)
Fixpoint dedup_loop (fun_ : T -> value) (lastValue : value)
         (iterable : list T) : list T :=
  match iterable with
  | [] => []
  | item :: rest =>
      let value := fun_ item in
      if strict_neq value lastValue then item :: dedup_loop fun_ value rest
      else dedup_loop fun_ lastValue rest
  end.

Definition dedup (iterable : list T) (fun_ : T -> value) : list T :=
  dedup_loop fun_ VUndefined iterable.

(** [dropEvery]: [if (++count % n !== 0) yield item] *)
Fixpoint dropEvery_loop (n : Z) (count : nat) (iterable : list T) : list T :=
  match iterable with
  | [] => []
  | item :: rest =>
      if negb (divides n (S count)) then item :: dropEvery_loop n (S count) rest
      else dropEvery_loop n (S count) rest
  end.

Definition dropEvery (iterable : list T) (n : Z) : list T :=
  dropEvery_loop n 0 iterable.

End Generic.

End Lists.

(** ** [take], one [next()] at a time *)

Module Pull.

Section Take.
Context {T : Type}.

(** The upstream iterator of a finite list, with the number of [next()]
    calls it has received. *)
Record source : Type := { pending : list T; requests : nat }.

Definition source_next (s : source) : option T * source :=
  match pending s with
  | [] => (None, {| pending := []; requests := S (requests s) |})
  | item :: rest => (Some item, {| pending := rest; requests := S (requests s) |})
  end.

(** The generator object of [take(iterable, n)]: its parameters, its
    local [count], and whether its body has finished. *)
Record take_gen : Type :=
  { upstream : source; n : Z; count : nat; finished : bool }.

Definition take (iterable : source) (n : Z) : take_gen :=
  {| upstream := iterable; n := n; count := 0; finished := false |}.

(** [next()] on the generator: the [for ... of] header asks the source
    for an item, then the body tests [count++ >= n]. *)
Definition take_next (g : take_gen) : option T * take_gen :=
  if finished g then (None, g)
  else
    let (r, up) := source_next (upstream g) in
    match r with
    | None =>
        (None, {| upstream := up; n := n g; count := count g; finished := true |})
    | Some item =>
        if Z.of_nat (count g) >=? n g
        then (None, {| upstream := up; n := n g; count := S (count g); finished := true |})
        else (Some item, {| upstream := up; n := n g; count := S (count g); finished := false |})
    end.

(** Spreading, [[...take(source, n)]]: call [next()] until it reports
    that the generator is done. *)
Fixpoint drain (fuel : nat) (g : take_gen) : option (list T * take_gen) :=
  match fuel with
  | O => None
  | S fuel' =>
      match take_next g with
      | (None, g') => Some ([], g')
      | (Some item, g') =>
          match drain fuel' g' with
          | Some (items, g'') => Some (item :: items, g'')
          | None => None
          end
      end
  end.

End Take.
Arguments source : clear implicits.
Arguments take_gen : clear implicits.

Section Consumers.
Context {T : Type}.

(** [next()] on the generator of [filter(iterable, fun)]: its loop asks
    the source for items until one passes the test or the source is
    done. *)
Fixpoint filter_next_loop (fun_ : T -> JS.value) (pending : list T) (requests : nat)
  : option T * source T :=
  match pending with
  | [] => (None, {| pending := []; requests := S requests |})
  | item :: rest =>
      if JS.truthy (fun_ item)
      then (Some item, {| pending := rest; requests := S requests |})
      else filter_next_loop fun_ rest (S requests)
  end.

Definition filter_next (iterable : source T) (fun_ : T -> JS.value)
  : option T * source T :=
  filter_next_loop fun_ (pending iterable) (requests iterable).

(** [any]: [!empty(filter(iterable, fun))]; [empty] calls [next()] once
    on the generator and returns at once. *)
Definition any (iterable : source T) (fun_ : T -> JS.value) : bool * source T :=
  let (r, up) := filter_next iterable fun_ in
  (match r with Some _ => true | None => false end, up).

(** [all]: [empty(reject(iterable, fun))], where [reject] filters with
    [(x) => !fun(x)]. *)
Definition all (iterable : source T) (fun_ : T -> JS.value) : bool * source T :=
  let (r, up) :=
    filter_next iterable (fun x => JS.VBool (negb (JS.truthy (fun_ x)))) in
  (match r with Some _ => false | None => true end, up).

(** [find]: one [next()] per turn of the loop, until the [return]. *)
Fixpoint find_loop (fun_ : T -> JS.value) (defaultValue : T) (pending : list T)
         (requests : nat) : T * source T :=
  match pending with
  | [] => (defaultValue, {| pending := []; requests := S requests |})
  | item :: rest =>
      if JS.truthy (fun_ item)
      then (item, {| pending := rest; requests := S requests |})
      else find_loop fun_ defaultValue rest (S requests)
  end.

Definition find (iterable : source T) (fun_ : T -> JS.value) (defaultValue : T)
  : T * source T :=
  find_loop fun_ defaultValue (pending iterable) (requests iterable).

End Consumers.

End Pull.

(** * Vocabulary of the statements *)

Module Spec.
Import JS.

(** The value [lastValue] holds when the loop of [dedup] has run over
    [iterable], having started at [lastValue]. *)
Fixpoint last_value {T : Type} (fun_ : T -> value) (lastValue : value)
         (iterable : list T) : value :=
  match iterable with
  | [] => lastValue
  | item :: rest =>
      if strict_neq (fun_ item) lastValue then last_value fun_ (fun_ item) rest
      else last_value fun_ lastValue rest
  end.

(** The accumulator is not [undefined] whenever an item is still to be
    folded into it: [acc], [f acc x1], [f (f acc x1) x2], ... up to the
    one before the last. *)
Fixpoint defined_along (f : value -> value -> value) (acc : value)
         (rest : list value) : bool :=
  match rest with
  | [] => true
  | item :: rest' =>
      strict_neq acc VUndefined && defined_along f (f acc item) rest'
  end.

(** [a + b] on numbers; anything else gives NaN here. *)
Definition plus (a b : value) : value :=
  match a, b with
  | VNum x, VNum y => VNum (x + y)
  | _, _ => VNaN
  end.

(** The positions among [from], [from + 1], ..., [from + len - 1] at
    which [chunkEvery] opens a window: those where [i % step === 0]. *)
Definition starts (step : Z) (from len : nat) : list nat :=
  List.filter (divides step) (seq from len).

(** The window opened at position [o]: up to [c] items from there. *)
Definition window {T : Type} (c : nat) (xs : list T) (o : nat) : list T :=
  firstn c (skipn o xs).

(** The windows that reach [c] items within a source of [n] items, and
    those that are opened but do not. *)
Definition full_starts (step : Z) (c n : nat) : list nat :=
  List.filter (fun o => divides step o && (o + c <=? n)%nat) (seq 0 n).

Definition partial_starts (step : Z) (c n : nat) : list nat :=
  List.filter (fun o => divides step o && (n <? o + c)%nat) (seq 0 n).

(** [xs] without the items at the positions where [i % n === 0], counted
    from [i]: without its 1st, (n+1)-th, (2n+1)-th, ... item when [i] is
    0. *)
Fixpoint without_every {T : Type} (n : Z) (i : nat) (xs : list T) : list T :=
  match xs with
  | [] => []
  | x :: rest =>
      if divides n i then without_every n (S i) rest
      else x :: without_every n (S i) rest
  end.

(** What the error taxonomy asks of a non-positive argument. *)
Definition rejected {A : Type} (c : completion A) : Prop :=
  c = Throw InvalidArgument.

(** The longest prefix of [xs] on which [p] holds. *)
Fixpoint leading {T : Type} (p : T -> bool) (xs : list T) : list T :=
  match xs with
  | [] => []
  | x :: rest => if p x then x :: leading p rest else []
  end.

(** How many items of [xs] have the key [k], as [Map] compares keys. *)
Definition occurrences {T : Type} (f : T -> value) (k : value) (xs : list T) : nat :=
  length (List.filter (fun x => JSMap.same_value_zero (f x) k) xs).

(** The items of [xs] that have the key [k], in order. *)
Definition with_key {T : Type} (f : T -> value) (k : value) (xs : list T) : list T :=
  List.filter (fun x => JSMap.same_value_zero (f x) k) xs.

(** Between two chunks of [chunkBy]: the key that starts [c2] is [!==]
    to the keys of [c1]. *)
Definition chunk_boundary {T : Type} (f : T -> value) (c1 c2 : list T) : Prop :=
  match c2 with
  | [] => True
  | b :: _ => forall a, In a c1 -> strict_neq (f b) (f a) = true
  end.

(** The folding function [minBy] gives to [reduce], with the default
    comparator: [(a, b) => (fun(a) <= fun(b) ? a : b)]. *)
Definition by_key (f : value -> value) (a b : value) : value :=
  if le (f a) (f b) then a else b.

(** A JavaScript number of the model: an integer, or NaN ([None]). *)
Definition num (n : option Z) : value :=
  match n with
  | Some z => VNum z
  | None => VNaN
  end.

(** The numbers of [l] that are not NaN, in order. *)
Definition finite (l : list (option Z)) : list Z :=
  List.flat_map (fun n => match n with Some z => [z] | None => [] end) l.

End Spec.

(** * Properties *)

Import JS.

(** ** Short-circuiting consumers: [all] and [any] *)

Lemma filter_truthy {T : Type} (xs : list T) (f : T -> value) :
  Streams.filter xs f = List.filter (fun x => truthy (f x)) xs.
Proof.
  induction xs as [|x xs IH]; simpl; [reflexivity|].
  now rewrite IH.
Qed.

Lemma streams_all_forallb {T : Type} (xs : list T) (f : T -> value) :
  Streams.all xs f = forallb (fun x => truthy (f x)) xs.
Proof.
  unfold Streams.all, Streams.reject.
  induction xs as [|x xs IH]; simpl; [reflexivity|].
  destruct (truthy (f x)); simpl; [exact IH | reflexivity].
Qed.

Lemma streams_any_existsb {T : Type} (xs : list T) (f : T -> value) :
  Streams.any xs f = existsb (fun x => truthy (f x)) xs.
Proof.
  unfold Streams.any.
  induction xs as [|x xs IH]; simpl; [reflexivity|].
  destruct (truthy (f x)); simpl; [reflexivity | exact IH].
Qed.

Lemma lists_all_forallb {T : Type} (xs : list T) (f : T -> value) :
  Lists.all xs f = forallb (fun x => truthy (f x)) xs.
Proof.
  induction xs as [|x xs IH]; simpl; [reflexivity|].
  destruct (truthy (f x)); simpl; [exact IH | reflexivity].
Qed.

Lemma lists_any_existsb {T : Type} (xs : list T) (f : T -> value) :
  Lists.any xs f = existsb (fun x => truthy (f x)) xs.
Proof.
  induction xs as [|x xs IH]; simpl; [reflexivity|].
  destruct (truthy (f x)); simpl; [reflexivity | exact IH].
Qed.

(** The generator file and the older file agree on every input. *)
Lemma all_any_agree {T : Type} (xs : list T) (f : T -> value) :
  Streams.all xs f = Lists.all xs f /\ Streams.any xs f = Lists.any xs f.
Proof.
  rewrite streams_all_forallb, lists_all_forallb.
  rewrite streams_any_existsb, lists_any_existsb.
  split; reflexivity.
Qed.

(** C10.  On the empty sequence, with any predicate, [all] answers true
    and [any] answers false, in [streams.ts] and in [lists.js] alike. *)
Theorem all_any_on_empty :
  forall (T : Type) (fun_ : T -> value),
    Streams.all [] fun_ = true /\ Streams.any [] fun_ = false /\
    Lists.all [] fun_ = true /\ Lists.any [] fun_ = false.
Proof.
  intros T fun_.
  rewrite streams_all_forallb, streams_any_existsb.
  rewrite lists_all_forallb, lists_any_existsb.
  simpl. repeat split.
Qed.

(** ** [take] and [drop] *)

Lemma take_drop_loop {T : Type} (n : Z) (xs : list T) :
  forall count,
    Streams.take_loop n count xs ++ Streams.drop_loop n count xs = xs.
Proof.
  induction xs as [|x xs IH]; intros count; simpl; [reflexivity|].
  destruct (Z.of_nat count >=? n) eqn:E.
  - simpl. f_equal.
    (* once the counter has reached [n], [drop] keeps everything *)
    clear IH. revert count E.
    induction xs as [|y ys IHy]; intros count E;
      cbn [Streams.drop_loop]; [reflexivity|].
    assert (E' : (Z.of_nat (S count) >=? n) = true).
    { rewrite Z.geb_leb in *. apply Z.leb_le. apply Z.leb_le in E. lia. }
    rewrite E'. f_equal. apply (IHy (S count) E').
  - simpl. f_equal. apply IH.
Qed.

Lemma take_loop_firstn {T : Type} (n : Z) (xs : list T) :
  forall count,
    Streams.take_loop n count xs = firstn (Z.to_nat (n - Z.of_nat count)) xs.
Proof.
  induction xs as [|x xs IH]; intros count; cbn [Streams.take_loop].
  - now rewrite firstn_nil.
  - destruct (Z.of_nat count >=? n) eqn:E; rewrite Z.geb_leb in E.
    + apply Z.leb_le in E.
      replace (Z.to_nat (n - Z.of_nat count)) with 0%nat by lia. reflexivity.
    + apply Z.leb_gt in E. rewrite IH.
      replace (Z.to_nat (n - Z.of_nat count))
        with (S (Z.to_nat (n - Z.of_nat (S count)))) by lia.
      reflexivity.
Qed.

Lemma drop_loop_skipn {T : Type} (n : Z) (xs : list T) :
  forall count,
    Streams.drop_loop n count xs = skipn (Z.to_nat (n - Z.of_nat count)) xs.
Proof.
  intros count.
  pose proof (take_drop_loop n xs count) as H.
  rewrite take_loop_firstn in H.
  rewrite <- (firstn_skipn (Z.to_nat (n - Z.of_nat count)) xs) in H at 3.
  now apply app_inv_head in H.
Qed.

(** [take] yields the first [n] items, all of them when there are fewer. *)
Lemma take_firstn {T : Type} (xs : list T) (n : Z) :
  Streams.take xs n = firstn (Z.to_nat n) xs.
Proof.
  unfold Streams.take. rewrite take_loop_firstn. f_equal. lia.
Qed.

Lemma drop_skipn {T : Type} (xs : list T) (n : Z) :
  Streams.drop xs n = skipn (Z.to_nat n) xs.
Proof.
  unfold Streams.drop. rewrite drop_loop_skipn. f_equal. lia.
Qed.

(** C8.  For a finite sequence [S] and [n >= 0], what [take(S, n)] yields
    followed by what [drop(S, n)] yields is [S] itself. *)
Theorem take_then_drop :
  forall (T : Type) (S : list T) (n : Z),
    0 <= n -> Streams.take S n ++ Streams.drop S n = S.
Proof.
  intros T S n _. apply take_drop_loop.
Qed.

Lemma take_then_drop_witness :
  0 <= 2 /\ Streams.take [10; 20; 30; 40; 50] 2 ++ Streams.drop [10; 20; 30; 40; 50] 2
            = [10; 20; 30; 40; 50].
Proof.
  split; [lia | apply (take_then_drop Z [10; 20; 30; 40; 50] 2); lia].
Defined.

(** The same [take], one [next()] at a time: draining it yields what the
    loop yields, and the source has then been asked once more than the
    number of items that came out. *)
Lemma drain_take_loop {T : Type} (n : Z) (xs : list T) :
  forall (r count fuel : nat),
    (length xs < fuel)%nat ->
    exists g,
      Pull.drain fuel
        {| Pull.upstream := {| Pull.pending := xs; Pull.requests := r |};
           Pull.n := n; Pull.count := count; Pull.finished := false |}
      = Some (Streams.take_loop n count xs, g) /\
      Pull.finished g = true /\
      Pull.requests (Pull.upstream g)
      = (r + S (length (Streams.take_loop n count xs)))%nat /\
      Pull.pending (Pull.upstream g)
      = skipn (S (length (Streams.take_loop n count xs))) xs.
Proof.
  induction xs as [|x xs IH]; intros r count fuel Hfuel;
    (destruct fuel as [|fuel]; [simpl in Hfuel; lia|]).
  - eexists. split; [reflexivity | cbn; repeat split; lia].
  - cbn [Pull.drain Pull.take_next Pull.finished Pull.upstream Pull.source_next
             Pull.pending Pull.requests Pull.n Pull.count Streams.take_loop].
    destruct (Z.of_nat count >=? n) eqn:E.
    + eexists. split; [reflexivity | cbn; repeat split; lia].
    + simpl in Hfuel.
      destruct (IH (S r) (S count) fuel ltac:(lia)) as (g & Hd & Hf & Hr & Hp).
      exists g. rewrite Hd. cbn [length skipn]. repeat split; try assumption.
      rewrite Hr. lia.
Qed.

(** With [0 <= n] and more than [n] items in the source, [take] has
    asked for [n + 1] of them when it stops. *)
Lemma take_requests {T : Type} (xs : list T) (k : nat) :
  (k < length xs)%nat ->
  exists g,
    Pull.drain (S (length xs))
               (Pull.take {| Pull.pending := xs; Pull.requests := 0 |} (Z.of_nat k))
    = Some (firstn k xs, g) /\
    Pull.requests (Pull.upstream g) = S k /\
    Pull.pending (Pull.upstream g) = skipn (S k) xs.
Proof.
  intros Hk.
  destruct (drain_take_loop (Z.of_nat k) xs 0 0 (S (length xs)) ltac:(lia))
    as (g & Hd & _ & Hr & Hp).
  fold (Streams.take xs (Z.of_nat k)) in *.
  rewrite take_firstn, Nat2Z.id in *.
  rewrite length_firstn, Nat.min_l in * by lia.
  exists g. auto.
Qed.

(** Building the generator asks nothing of the source. *)
Lemma take_built_lazily {T : Type} (src : Pull.source T) (n : Z) :
  Pull.upstream (Pull.take src n) = src.
Proof.
  reflexivity.
Qed.

(** C7.  [take(source, 3)] over the five items 1..5 yields [1; 2; 3] and
    has then called [next()] on its source four times: item 4 was taken
    from the source and thrown away, and only 5 is left in it.  With
    [n = 0] the first [next()] already takes an item from the source. *)
Theorem take_asks_one_item_too_many :
  Pull.drain 6 (Pull.take {| Pull.pending := [1; 2; 3; 4; 5]; Pull.requests := 0 |} 3)
  = Some ([1; 2; 3],
          {| Pull.upstream := {| Pull.pending := [5]; Pull.requests := 4 |};
             Pull.n := 3; Pull.count := 4; Pull.finished := true |})
  /\
  Pull.take_next (Pull.take {| Pull.pending := [1; 2; 3]; Pull.requests := 0 |} 0)
  = (None,
     {| Pull.upstream := {| Pull.pending := [2; 3]; Pull.requests := 1 |};
        Pull.n := 0; Pull.count := 1; Pull.finished := true |}).
Proof.
  split; reflexivity.
Qed.

(** ** [reduce] and the comparators built on it *)

Lemma reduce_loop_fold (f : value -> value -> value) (rest : list value) :
  forall acc,
    Spec.defined_along f acc rest = true ->
    Streams.reduce_loop f acc rest = fold_left f rest acc.
Proof.
  induction rest as [|item rest IH]; intros acc H; [reflexivity|].
  cbn [Spec.defined_along] in H. apply andb_prop in H as [Hacc Hrest].
  unfold strict_neq in Hacc. apply negb_true_iff in Hacc.
  cbn [Streams.reduce_loop fold_left]. rewrite Hacc. now apply IH.
Qed.

(** As long as the accumulator is never [undefined] while an item
    remains, the loop started without [initial] folds [f] over the items
    after the first, seeded with the first. *)
Lemma reduce_seeded_by_first
      (f : value -> value -> value) (e1 : value) (rest : list value) :
  Spec.defined_along f e1 rest = true ->
  Streams.reduce (e1 :: rest) f VUndefined = fold_left f rest e1.
Proof.
  intros H. unfold Streams.reduce. cbn [Streams.reduce_loop strict_eq].
  now apply reduce_loop_fold.
Qed.

(** C5.  The loop tests [acc === undefined] on every turn, so it reads
    an [undefined] accumulator as "no accumulator yet".  Over
    [undefined, 1, 2] with addition, [reduce] returns 3: the second item
    seeds the fold again, where the left fold of the items after the
    first, seeded with the first, gives NaN.  Over [1, 2, 3] with a
    function that returns [undefined], it returns 3: the last item
    replaces the accumulator instead of being folded into it, where the
    left fold gives [undefined]. *)
Theorem reduce_reseeds_on_undefined :
  Streams.reduce [VUndefined; VNum 1; VNum 2] Spec.plus VUndefined = VNum 3 /\
  fold_left Spec.plus [VNum 1; VNum 2] VUndefined = VNaN /\
  Streams.reduce [VNum 1; VNum 2; VNum 3] (fun _ _ => VUndefined) VUndefined = VNum 3 /\
  fold_left (fun _ _ => VUndefined) [VNum 2; VNum 3] (VNum 1) = VUndefined.
Proof.
  repeat split.
Qed.

(** [maxBy] and [minBy] have the same body. *)
Lemma maxBy_is_minBy (xs : list value) (f : value -> value)
      (sorter : option (value -> value -> bool)) :
  Streams.maxBy xs f sorter = Streams.minBy xs f sorter.
Proof.
  reflexivity.
Qed.

(** C3.  With the default comparator and the identity key, [maxBy] over
    1, 2, 3 returns 1, the least element, where [max] returns 3. *)
Theorem maxBy_returns_least :
  Streams.maxBy [VNum 1; VNum 2; VNum 3] (fun x => x) None = VNum 1 /\
  Streams.max [VNum 1; VNum 2; VNum 3] None = VNum 3.
Proof.
  split; reflexivity.
Qed.

(** ** [dedup] *)

Lemma lists_dedup_streams {T : Type} (xs : list T) (f : T -> value) :
  Lists.dedup xs f = Streams.dedup xs f.
Proof.
  unfold Lists.dedup, Streams.dedup. generalize VUndefined.
  induction xs as [|x xs IH]; intros v; simpl; [reflexivity|].
  now rewrite !IH.
Qed.

Lemma dedup_loop_snoc {T : Type} (f : T -> value) (pre : list T) (e : T) :
  forall v,
    Streams.dedup_loop f v (pre ++ [e])
    = Streams.dedup_loop f v pre
        ++ (if strict_neq (f e) (Spec.last_value f v pre) then [e] else []).
Proof.
  induction pre as [|x pre IH]; intros v; simpl.
  - destruct (strict_neq (f e) v); reflexivity.
  - destruct (strict_neq (f x) v); simpl; now rewrite IH.
Qed.

(** [lastValue] is the key of the last item yielded so far, or its
    starting value when nothing was yielded. *)
Lemma last_value_last_yielded {T : Type} (f : T -> value) (pre : list T) (d : T) :
  forall v,
    Spec.last_value f v pre
    = match Streams.dedup_loop f v pre with
      | [] => v
      | _ :: _ => f (last (Streams.dedup_loop f v pre) d)
      end.
Proof.
  induction pre as [|x pre IH]; intros v; simpl; [reflexivity|].
  destruct (strict_neq (f x) v) eqn:E.
  - rewrite IH. destruct (Streams.dedup_loop f (f x) pre); reflexivity.
  - apply IH.
Qed.

Lemma strict_eq_true (a b : value) : strict_eq a b = true -> a = b.
Proof.
  destruct a, b; cbn; try discriminate; intros H; try reflexivity.
  - apply Bool.eqb_prop in H. now subst.
  - apply Z.eqb_eq in H. now subst.
Qed.

(** A first element whose key is not [undefined] is yielded. *)
Lemma dedup_first_when_defined {T : Type} (f : T -> value) (e1 : T) (rest : list T) :
  strict_neq (f e1) VUndefined = true ->
  hd_error (Streams.dedup (e1 :: rest) f) = Some e1.
Proof.
  intros H. unfold Streams.dedup. cbn [Streams.dedup_loop]. now rewrite H.
Qed.

(** Every element [e] after the first is yielded exactly when its key is
    [!==] to the key of the last element yielded before it (to the key
    of the first element, which is then [undefined], when none was). *)
Lemma dedup_later_items {T : Type} (f : T -> value) (e1 : T) (pre : list T) (e : T) :
  Streams.dedup (e1 :: pre ++ [e]) f
  = Streams.dedup (e1 :: pre) f
      ++ (if strict_neq (f e) (f (last (Streams.dedup (e1 :: pre) f) e1))
          then [e] else []).
Proof.
  unfold Streams.dedup. rewrite app_comm_cons, dedup_loop_snoc. do 2 f_equal.
  rewrite (last_value_last_yielded f (e1 :: pre) e1).
  destruct (Streams.dedup_loop f VUndefined (e1 :: pre)) eqn:E; [|reflexivity].
  cbn [last]. cbn [Streams.dedup_loop] in E.
  destruct (strict_neq (f e1) VUndefined) eqn:E1; [discriminate|].
  unfold strict_neq in E1. apply negb_false_iff in E1.
  apply strict_eq_true in E1. now rewrite E1.
Qed.

(** C4.  [dedup([undefined, 1])] yields [[1]]: the first element is not
    yielded, because its key is [===] to [undefined], the value
    [lastValue] starts with; and with a key function that returns
    [undefined] for every item, [dedup([1, 2])] yields nothing. *)
Theorem dedup_skips_undefined_first :
  Streams.dedup [VUndefined; VNum 1] (fun x => x) = [VNum 1] /\
  hd_error (Streams.dedup [VUndefined; VNum 1] (fun x => x)) <> Some VUndefined /\
  Streams.dedup [VNum 1; VNum 2] (fun _ => VUndefined) = [].
Proof.
  repeat split. discriminate.
Qed.

(** ** [dropEvery] *)

Lemma dropEvery_yields_nothing {T : Type} (xs : list T) (n : Z) :
  Streams.yielded (Streams.dropEvery xs n) = [].
Proof.
  reflexivity.
Qed.

(** C2.  [dropEvery([1,2,3,4,5,6], 3)] of [streams.ts] yields nothing:
    the expected [2; 3; 5; 6] is the generator it returns, which no
    consumer iterates.  The loop of [lists.js] yields [1; 2; 4; 5]. *)
Theorem dropEvery_on_six :
  Streams.yielded (Streams.dropEvery [1; 2; 3; 4; 5; 6] 3) = [] /\
  Streams.returned (Streams.dropEvery [1; 2; 3; 4; 5; 6] 3) = [2; 3; 5; 6] /\
  Lists.dropEvery [1; 2; 3; 4; 5; 6] 3 = [1; 2; 4; 5].
Proof.
  repeat split.
Qed.

(** ** [chunkEvery]: the shape of the output *)

Section ChunkEvery.
Context {T : Type}.
Implicit Types (xs p : list T) (st : Streams.windows (T := T)).

Lemma chunk_run_snoc (count step : Z) p (x : T) :
  forall st,
    Streams.chunk_run count step st (p ++ [x])
    = let (ys, st1) := Streams.chunk_run count step st p in
      let (zs, st2) := Streams.chunk_step count step st1 x in
      (ys ++ zs, st2).
Proof.
  induction p as [|y p IH]; intros st; cbn [app Streams.chunk_run].
  - destruct (Streams.chunk_step count step st x) as [zs st2].
    now rewrite app_nil_r.
  - destruct (Streams.chunk_step count step st y) as [ys st1].
    rewrite IH.
    destruct (Streams.chunk_run count step st1 p) as [us st2].
    destruct (Streams.chunk_step count step st2 x) as [zs st3].
    now rewrite app_assoc.
Qed.

Lemma last_window_snoc (l : list (list T)) (w : list T) :
  last_window (l ++ [w]) = Some w.
Proof.
  unfold last_window. destruct (l ++ [w]) eqn:E.
  - now destruct l.
  - rewrite <- E. rewrite length_app. cbn [length].
    replace (length l + 1 - 1)%nat with (length l) by lia.
    now rewrite nth_error_app2, Nat.sub_diag by lia.
Qed.

Lemma last_window_in (cs : list (list T)) (w : list T) :
  last_window cs = Some w -> In w cs.
Proof.
  unfold last_window. destruct cs; [discriminate|].
  apply nth_error_In.
Qed.

(** A turn of the loop in which no window has [count] items yields
    nothing. *)
Lemma chunk_step_keep (count step : Z) st (item : T) (cs : list (list T)) :
  cs = push_all item (if divides step (Streams.i st)
                      then [] :: Streams.currents st else Streams.currents st) ->
  (forall w, In w cs -> Z.of_nat (length w) <> count) ->
  Streams.chunk_step count step st item
  = ([], {| Streams.currents := cs; Streams.i := S (Streams.i st) |}).
Proof.
  intros -> H. unfold Streams.chunk_step.
  destruct (last_window _) as [w|] eqn:E; [|reflexivity].
  apply last_window_in in E. apply H in E.
  apply Z.eqb_neq in E. now rewrite E.
Qed.

(** A turn in which the oldest window has [count] items yields it and
    pops it. *)
Lemma chunk_step_close (count step : Z) st (item : T)
      (l : list (list T)) (w : list T) :
  l ++ [w] = push_all item (if divides step (Streams.i st)
                            then [] :: Streams.currents st else Streams.currents st) ->
  Z.of_nat (length w) = count ->
  Streams.chunk_step count step st item
  = ([w], {| Streams.currents := l; Streams.i := S (Streams.i st) |}).
Proof.
  intros E H. unfold Streams.chunk_step. rewrite <- E.
  rewrite last_window_snoc. apply Z.eqb_eq in H. rewrite H.
  now rewrite removelast_last.
Qed.

Lemma starts_snoc (step : Z) (a d : nat) :
  Spec.starts step a (S d)
  = Spec.starts step a d ++ (if divides step (a + d) then [(a + d)%nat] else []).
Proof.
  unfold Spec.starts. rewrite seq_S, filter_app. reflexivity.
Qed.

Lemma starts_cons (step : Z) (a d : nat) :
  Spec.starts step a (S d)
  = (if divides step a then [a] else []) ++ Spec.starts step (S a) d.
Proof.
  unfold Spec.starts. cbn [seq List.filter].
  destruct (divides step a); reflexivity.
Qed.

Lemma starts_app (step : Z) (a d e : nat) :
  Spec.starts step a (d + e)
  = Spec.starts step a d ++ Spec.starts step (a + d) e.
Proof.
  unfold Spec.starts. now rewrite seq_app, filter_app.
Qed.

Lemma starts_in (step : Z) (a d o : nat) :
  In o (Spec.starts step a d) <->
  (a <= o < a + d)%nat /\ divides step o = true.
Proof.
  unfold Spec.starts. rewrite filter_In, in_seq. reflexivity.
Qed.

Lemma skipn_snoc p (x : T) (o : nat) :
  (o <= length p)%nat -> skipn o (p ++ [x]) = skipn o p ++ [x].
Proof.
  intros H. rewrite skipn_app.
  replace (o - length p)%nat with 0%nat by lia. reflexivity.
Qed.

(** Opening a window at position [length p] when the test says so, then
    pushing the item on every open window. *)
Lemma open_then_push (step : Z) p (x : T) (a d : nat) :
  (a + d = length p)%nat ->
  push_all x (if divides step (length p)
              then [] :: List.map (fun o => skipn o p) (rev (Spec.starts step a d))
              else List.map (fun o => skipn o p) (rev (Spec.starts step a d)))
  = List.map (fun o => skipn o (p ++ [x])) (rev (Spec.starts step a (S d))).
Proof.
  intros Had. rewrite starts_snoc, rev_app_distr, Had.
  assert (Hmap : push_all x (List.map (fun o => skipn o p) (rev (Spec.starts step a d)))
                 = List.map (fun o => skipn o (p ++ [x])) (rev (Spec.starts step a d))).
  { unfold push_all. rewrite map_map. apply map_ext_in.
    intros o Ho. apply in_rev, starts_in in Ho.
    symmetry. apply skipn_snoc. lia. }
  destruct (divides step (length p)).
  - cbn [rev app List.map]. unfold push_all in *. cbn [List.map].
    rewrite Hmap. f_equal.
    rewrite skipn_snoc, skipn_all by lia. reflexivity.
  - cbn [rev app]. exact Hmap.
Qed.

Lemma window_snoc_full (c : nat) p (x : T) (o : nat) :
  (o + c <= length p)%nat ->
  Spec.window c (p ++ [x]) o = Spec.window c p o.
Proof.
  intros H. unfold Spec.window. rewrite skipn_snoc by lia.
  rewrite firstn_app, length_skipn.
  replace (c - (length p - o))%nat with 0%nat by lia.
  cbn [firstn]. now rewrite app_nil_r.
Qed.

Lemma window_length (c : nat) xs (o : nat) :
  length (Spec.window c xs o) = Nat.min c (length xs - o).
Proof.
  unfold Spec.window. now rewrite length_firstn, length_skipn.
Qed.

Lemma window_short (c : nat) xs (o : nat) :
  (length xs <= o + c)%nat -> Spec.window c xs o = skipn o xs.
Proof.
  intros H. unfold Spec.window. apply firstn_all2.
  rewrite length_skipn. lia.
Qed.

(** The loop invariant, for [count > 0] and any [step].  When the loop
    has run over [p], the windows opened at least [count] items ago have
    been yielded, in the order they were opened; the later ones are in
    [currents], the most recent first. *)
Lemma chunk_run_shape (c : nat) (step : Z) :
  (0 < c)%nat ->
  forall p,
    Streams.chunk_run (Z.of_nat c) step
                      {| Streams.currents := []; Streams.i := 0 |} p
    = (List.map (Spec.window c p) (Spec.starts step 0 (length p + 1 - c)),
       {| Streams.currents :=
            List.map (fun o => skipn o p)
                     (rev (Spec.starts step (length p + 1 - c)
                                       (length p - (length p + 1 - c))));
          Streams.i := length p |}).
Proof.
  intros Hc p. induction p as [|x p IH] using rev_ind.
  - cbn [length Nat.add]. replace (1 - c)%nat with 0%nat by lia. reflexivity.
  - rewrite chunk_run_snoc, IH. clear IH.
    rewrite length_app. cbn [length].
    set (j := length p).
    set (a := (j + 1 - c)%nat).
    set (d := (j - a)%nat).
    assert (Had : (a + d = j)%nat) by lia.
    pose proof (open_then_push step p x a d Had) as Hpush.
    fold j in Hpush.
    destruct (Nat.le_gt_cases c (j + 1)) as [Hge|Hlt].
    + (* the window opened at [a], if there is one, is full now *)
      replace (j + 1 + 1 - c)%nat with (S a) by lia.
      replace (j + 1 - S a)%nat with d by lia.
      rewrite starts_cons in Hpush.
      rewrite (starts_snoc step 0 a). cbn [Nat.add].
      destruct (divides step a) eqn:Ediv.
      * cbn [app] in Hpush. cbn [rev] in Hpush. rewrite map_app in Hpush.
        cbn [List.map] in Hpush.
        erewrite chunk_step_close;
          [ | cbn [Streams.i Streams.currents]; symmetry; exact Hpush
            | rewrite length_skipn, length_app; cbn [length]; lia ].
        cbn [Streams.i]. replace (S j) with (j + 1)%nat by lia. f_equal.
        rewrite map_app. cbn [List.map]. f_equal.
        -- apply map_ext_in. intros o Ho. apply starts_in in Ho.
           symmetry. apply window_snoc_full. lia.
        -- f_equal. symmetry. apply window_short.
           rewrite length_app. cbn [length]. lia.
      * cbn [app] in Hpush.
        erewrite chunk_step_keep;
          [ | cbn [Streams.i Streams.currents]; symmetry; exact Hpush | ].
        -- cbn [Streams.i]. replace (S j) with (j + 1)%nat by lia. f_equal.
           rewrite !app_nil_r.
           apply map_ext_in. intros o Ho. apply starts_in in Ho.
           symmetry. apply window_snoc_full. lia.
        -- intros w Hw. apply in_map_iff in Hw as (o & <- & Ho).
           apply in_rev, starts_in in Ho.
           rewrite length_skipn, length_app. cbn [length]. lia.
    + (* fewer than [count] items so far: nothing can be full *)
      replace (j + 1 + 1 - c)%nat with 0%nat by lia.
      replace a with 0%nat in * by lia.
      replace (j + 1 - 0)%nat with (S d) by lia.
      erewrite chunk_step_keep;
        [ | cbn [Streams.i Streams.currents]; symmetry; exact Hpush | ].
      * cbn [Streams.i]. replace (S j) with (j + 1)%nat by lia.
        rewrite app_nil_r. reflexivity.
      * intros w Hw. apply in_map_iff in Hw as (o & <- & Ho).
        apply in_rev, starts_in in Ho.
        rewrite length_skipn, length_app. cbn [length]. lia.
Qed.

(** With [count <= 0] no window ever has [count] items: nothing is
    yielded before the source ends, and every window stays open. *)
Lemma chunk_run_never_closes (count step : Z) :
  count <= 0 ->
  forall p,
    Streams.chunk_run count step {| Streams.currents := []; Streams.i := 0 |} p
    = ([], {| Streams.currents :=
                List.map (fun o => skipn o p) (rev (Spec.starts step 0 (length p)));
              Streams.i := length p |}).
Proof.
  intros Hc p. induction p as [|x p IH] using rev_ind; [reflexivity|].
  rewrite chunk_run_snoc, IH. clear IH.
  rewrite length_app. cbn [length].
  pose proof (open_then_push step p x 0 (length p) eq_refl) as Hpush.
  erewrite chunk_step_keep;
    [ | cbn [Streams.i Streams.currents]; symmetry; exact Hpush | ].
  - cbn [app Streams.i].
    replace (length p + 1)%nat with (S (length p)) by lia. reflexivity.
  - intros w Hw. apply in_map_iff in Hw as (o & <- & Ho).
    apply in_rev, starts_in in Ho.
    rewrite length_skipn, length_app. cbn [length]. lia.
Qed.

End ChunkEvery.

(** ** The test [i % step === 0] *)

Lemma divides_zero (i : nat) : divides 0 i = false.
Proof. reflexivity. Qed.

Lemma divides_opp (step : Z) (i : nat) : divides (- step) i = divides step i.
Proof.
  unfold divides. rewrite Z.rem_opp_r'.
  destruct (Z.eqb_spec step 0) as [->|Hs]; [reflexivity|].
  destruct (Z.eqb_spec (- step) 0); [lia | reflexivity].
Qed.

Lemma divides_mod (step : Z) (i : nat) :
  0 < step -> divides step i = true <-> Z.of_nat i mod step = 0.
Proof.
  intros Hs. unfold divides.
  destruct (Z.eqb_spec step 0); [lia|].
  rewrite Z.rem_mod_nonneg by lia. apply Z.eqb_eq.
Qed.

(** Between a position where a window opens and the one [step] later, no
    window opens. *)
Lemma divides_gap (step : Z) (b o : nat) :
  0 < step -> divides step b = true ->
  (b < o)%nat -> Z.of_nat o < Z.of_nat b + step ->
  divides step o = false.
Proof.
  intros Hs Hb Hlo Hhi. apply not_true_is_false. intros Ho.
  apply divides_mod in Hb, Ho; try assumption.
  apply Z.mod_divide in Hb as [kb Hkb]; [|lia].
  replace (Z.of_nat o) with ((Z.of_nat o - Z.of_nat b) + kb * step) in Ho by lia.
  rewrite Z_mod_plus_full, Z.mod_small in Ho by lia. lia.
Qed.

Lemma divides_next (step : Z) (b : nat) :
  0 < step -> divides step b = true ->
  divides step (b + Z.to_nat step) = true.
Proof.
  intros Hs Hb. apply divides_mod in Hb; [|assumption].
  apply divides_mod; [assumption|].
  replace (Z.of_nat (b + Z.to_nat step)) with (Z.of_nat b + 1 * step) by lia.
  now rewrite Z_mod_plus_full.
Qed.

(** Every position is less than [step] after one where a window opens. *)
Lemma divides_before (step : Z) (j : nat) :
  0 < step ->
  exists o, divides step o = true /\ (o <= j)%nat /\ Z.of_nat j < Z.of_nat o + step.
Proof.
  intros Hs.
  pose proof (Z.mod_pos_bound (Z.of_nat j) step Hs) as Hm.
  pose proof (Z.div_mod (Z.of_nat j) step ltac:(lia)) as Hd.
  pose proof (Z.mod_le (Z.of_nat j) step ltac:(lia) Hs) as Hle.
  exists (Z.to_nat (Z.of_nat j - Z.of_nat j mod step)).
  split; [|lia].
  apply divides_mod; [assumption|].
  rewrite Z2Nat.id by lia.
  replace (Z.of_nat j - Z.of_nat j mod step) with (0 + (Z.of_nat j / step) * step) by lia.
  now rewrite Z_mod_plus_full.
Qed.

Lemma starts_none (step : Z) (a d : nat) :
  (forall o, (a <= o < a + d)%nat -> divides step o = false) ->
  Spec.starts step a d = [].
Proof.
  intros H. destruct (Spec.starts step a d) as [|o l] eqn:E; [reflexivity|].
  assert (Ho : In o (Spec.starts step a d)) by (rewrite E; now left).
  apply starts_in in Ho as [Hr Hd]. rewrite (H o Hr) in Hd. discriminate.
Qed.

(** Fewer than [step] consecutive positions hold at most one at which a
    window opens. *)
Lemma starts_sparse (step : Z) (d : nat) :
  0 < step -> Z.of_nat d <= step ->
  forall a, (length (Spec.starts step a d) <= 1)%nat.
Proof.
  intros Hs. induction d as [|d IH]; intros Hd a; [cbn; lia|].
  rewrite starts_cons. destruct (divides step a) eqn:E.
  - rewrite (starts_none step (S a) d); [cbn; lia|].
    intros o Ho. apply (divides_gap step a o); try assumption; lia.
  - cbn [app]. apply IH. lia.
Qed.

Lemma full_starts_interval (step : Z) (c n : nat) :
  (0 < c)%nat ->
  Spec.full_starts step c n = Spec.starts step 0 (n + 1 - c).
Proof.
  intros Hc. unfold Spec.full_starts, Spec.starts.
  assert (Hseq : seq 0 n = seq 0 (n + 1 - c) ++ seq (n + 1 - c) (n - (n + 1 - c))).
  { change (n + 1 - c)%nat with (0 + (n + 1 - c))%nat at 2.
    rewrite <- seq_app. f_equal. lia. }
  rewrite Hseq at 1. rewrite filter_app.
  rewrite <- app_nil_r. f_equal.
  - apply filter_ext_in. intros o Ho. apply in_seq in Ho.
    replace (o + c <=? n)%nat with true; [apply andb_true_r|].
    symmetry. apply Nat.leb_le. lia.
  - rewrite <- (filter_ext_in (fun _ => false)); [apply filter_false|].
    intros o Ho. apply in_seq in Ho.
    replace (o + c <=? n)%nat with false; [now rewrite andb_false_r|].
    symmetry. apply Nat.leb_gt. lia.
Qed.

Lemma partial_starts_interval (step : Z) (c n : nat) :
  (0 < c)%nat ->
  Spec.partial_starts step c n
  = Spec.starts step (n + 1 - c) (n - (n + 1 - c)).
Proof.
  intros Hc. unfold Spec.partial_starts, Spec.starts.
  assert (Hseq : seq 0 n = seq 0 (n + 1 - c) ++ seq (n + 1 - c) (n - (n + 1 - c))).
  { change (n + 1 - c)%nat with (0 + (n + 1 - c))%nat at 2.
    rewrite <- seq_app. f_equal. lia. }
  rewrite Hseq at 1. rewrite filter_app.
  rewrite <- app_nil_l. f_equal.
  - rewrite <- (filter_ext_in (fun _ => false)); [apply filter_false|].
    intros o Ho. apply in_seq in Ho.
    replace (n <? o + c)%nat with false; [now rewrite andb_false_r|].
    symmetry. apply Nat.ltb_ge. lia.
  - apply filter_ext_in. intros o Ho. apply in_seq in Ho.
    replace (n <? o + c)%nat with true; [apply andb_true_r|].
    symmetry. apply Nat.ltb_lt. lia.
Qed.

Lemma streams_concat {T : Type} (l : list (list T)) :
  Streams.concat l = List.concat l.
Proof.
  induction l as [|w l IH]; simpl; [reflexivity | now rewrite IH].
Qed.

Lemma streams_map {T U : Type} (l : list T) (f : T -> U) :
  Streams.map l f = List.map f l.
Proof.
  induction l as [|x l IH]; simpl; [reflexivity | now rewrite IH].
Qed.

(** What [chunkEvery] yields for [count > 0]: the windows that fill up,
    in the order they were opened, and then the windows still open when
    the source ends, in the order of [currents]: the most recently opened
    first. *)
Lemma chunkEvery_shape {T : Type} (xs : list T) (count : Z) (step : option Z) :
  0 < count ->
  let s := match step with Some s => s | None => count end in
  let c := Z.to_nat count in
  Streams.chunkEvery xs count step
  = List.map (Spec.window c xs) (Spec.full_starts s c (length xs))
    ++ List.map (Spec.window c xs) (rev (Spec.partial_starts s c (length xs))).
Proof.
  intros Hcount s c. unfold Streams.chunkEvery. fold s.
  assert (Hc : (0 < c)%nat) by lia.
  pose proof (chunk_run_shape c s Hc xs) as H.
  replace (Z.of_nat c) with count in H by lia. rewrite H.
  cbn [Streams.currents].
  rewrite full_starts_interval, partial_starts_interval by assumption.
  f_equal. apply map_ext_in. intros o Ho.
  apply in_rev, starts_in in Ho. symmetry. apply window_short. lia.
Qed.

(** What it yields for [count <= 0]: no window is ever closed. *)
Lemma chunkEvery_never_closes {T : Type} (xs : list T) (count : Z) (step : option Z) :
  count <= 0 ->
  let s := match step with Some s => s | None => count end in
  Streams.chunkEvery xs count step
  = List.map (fun o => skipn o xs) (rev (Spec.starts s 0 (length xs))).
Proof.
  intros Hcount s. unfold Streams.chunkEvery. fold s.
  now rewrite chunk_run_never_closes.
Qed.





(** ** [chunkEvery] with [step = count]: tiling *)

Lemma divides_origin (step : Z) : 0 < step -> divides step 0 = true.
Proof.
  intros Hs. apply divides_mod; [assumption|]. apply Z.mod_0_l. lia.
Qed.

(** With [step = count], the window after the one opened at [b] is
    opened at [b + count]. *)
Lemma starts_tile (count : Z) (b d : nat) :
  0 < count -> divides count b = true ->
  Spec.starts count b (S d)
  = b :: Spec.starts count (b + Z.to_nat count) (S d - Z.to_nat count).
Proof.
  intros Hcount Hb. set (c := Z.to_nat count).
  rewrite starts_cons, Hb. cbn [app]. f_equal.
  destruct (Nat.le_gt_cases (c - 1) d) as [Hd|Hd].
  - replace d with ((c - 1) + (S d - c))%nat at 1 by lia.
    rewrite starts_app.
    rewrite (starts_none count (S b) (c - 1)).
    + cbn [app]. f_equal. lia.
    + intros o Ho. apply (divides_gap count b o); try assumption; lia.
  - replace (S d - c)%nat with 0%nat by lia.
    cbn. apply starts_none.
    intros o Ho. apply (divides_gap count b o); try assumption; lia.
Qed.

Lemma window_then_rest {T : Type} (c : nat) (xs : list T) (b : nat) :
  Spec.window c xs b ++ skipn (b + c) xs = skipn b xs.
Proof.
  unfold Spec.window.
  rewrite <- (firstn_skipn c (skipn b xs)) at 2.
  f_equal. rewrite skipn_skipn. f_equal. lia.
Qed.

(** From a position [b] where a tile starts, the tiles up to the end of
    [xs] make up the rest of [xs]. *)
Lemma tiles_from {T : Type} (xs : list T) (count : Z) :
  0 < count ->
  let c := Z.to_nat count in
  forall (m b : nat),
    divides count b = true ->
    (length xs - b <= m)%nat ->
    List.concat (List.map (Spec.window c xs) (Spec.starts count b (length xs - b)))
    = skipn b xs.
Proof.
  intros Hcount c. assert (Hc : (0 < c)%nat) by lia.
  induction m as [|m IH]; intros b Hb Hm.
  - replace (length xs - b)%nat with 0%nat by lia.
    cbn. symmetry. apply skipn_all2. lia.
  - destruct (length xs - b)%nat as [|d] eqn:Ed.
    + cbn. symmetry. apply skipn_all2. lia.
    + rewrite starts_tile by assumption. fold c.
      cbn [List.map List.concat].
      replace (S d - c)%nat with (length xs - (b + c))%nat by lia.
      rewrite IH.
      * apply window_then_rest.
      * unfold c. now apply divides_next.
      * lia.
Qed.

Lemma tiles_concat {T : Type} (xs : list T) (count : Z) :
  0 < count ->
  List.concat (List.map (Spec.window (Z.to_nat count) xs)
                        (Spec.starts count 0 (length xs)))
  = xs.
Proof.
  intros Hcount.
  pose proof (tiles_from xs count Hcount (length xs) 0
                         (divides_origin count Hcount) ltac:(lia)) as H.
  cbv zeta in H. now rewrite Nat.sub_0_r in H.
Qed.

Lemma rev_short {A : Type} (l : list A) : (length l <= 1)%nat -> rev l = l.
Proof.
  destruct l as [|x [|y l]]; cbn; intros H; try reflexivity. lia.
Qed.

(** With [step = count] at most one window is open at any time, so the
    chunks come out in the order they were opened. *)
Lemma chunkEvery_tiling_shape {T : Type} (xs : list T) (count : Z) :
  0 < count ->
  let c := Z.to_nat count in
  (length (Spec.partial_starts count c (length xs)) <= 1)%nat /\
  Streams.chunkEvery xs count (Some count)
  = List.map (Spec.window c xs) (Spec.full_starts count c (length xs))
    ++ List.map (Spec.window c xs) (Spec.partial_starts count c (length xs)) /\
  Spec.full_starts count c (length xs) ++ Spec.partial_starts count c (length xs)
  = Spec.starts count 0 (length xs).
Proof.
  intros Hcount c. assert (Hc : (0 < c)%nat) by lia.
  assert (Hshort : (length (Spec.partial_starts count c (length xs)) <= 1)%nat).
  { rewrite partial_starts_interval by assumption.
    apply starts_sparse; [assumption | lia]. }
  split; [exact Hshort|]. split.
  - rewrite (chunkEvery_shape xs count (Some count) Hcount). cbv zeta. fold c.
    now rewrite (rev_short _ Hshort).
  - rewrite full_starts_interval, partial_starts_interval by assumption.
    rewrite <- starts_app. f_equal. lia.
Qed.

(** C9.  For [count > 0], the chunks of [chunkEvery(S, count, count)],
    concatenated, are [S]; every chunk has [count] items, except that the
    last one may have fewer (and at least one). *)
Theorem chunkEvery_tiles :
  forall (T : Type) (S : list T) (count : Z),
    0 < count ->
    Streams.concat (Streams.chunkEvery S count (Some count)) = S /\
    exists chunks final : list (list T),
      Streams.chunkEvery S count (Some count) = chunks ++ final /\
      Forall (fun w => Z.of_nat (length w) = count) chunks /\
      (final = [] \/
       exists w, final = [w] /\ (0 < length w)%nat /\ Z.of_nat (length w) < count).
Proof.
  intros T S count Hcount.
  destruct (chunkEvery_tiling_shape S count Hcount) as (Hshort & Hshape & Hall).
  set (c := Z.to_nat count) in *. assert (Hc : (0 < c)%nat) by lia.
  split.
  - rewrite streams_concat, Hshape, <- map_app, Hall. now apply tiles_concat.
  - exists (List.map (Spec.window c S) (Spec.full_starts count c (length S))),
           (List.map (Spec.window c S) (Spec.partial_starts count c (length S))).
    split; [exact Hshape|]. split.
    + apply Forall_forall. intros w Hw. apply in_map_iff in Hw as (o & <- & Ho).
      rewrite full_starts_interval in Ho by assumption. apply starts_in in Ho.
      rewrite window_length. lia.
    + destruct (Spec.partial_starts count c (length S)) as [|o [|o' l]] eqn:E.
      * now left.
      * right. exists (Spec.window c S o). split; [reflexivity|].
        assert (Ho : In o (Spec.partial_starts count c (length S)))
          by (rewrite E; now left).
        rewrite partial_starts_interval in Ho by assumption.
        apply starts_in in Ho. rewrite window_length. lia.
      * cbn in Hshort. lia.
Qed.

Lemma chunkEvery_tiles_witness :
  0 < 2 /\ Streams.concat (Streams.chunkEvery [1; 2; 3; 4; 5] 2 (Some 2)) = [1; 2; 3; 4; 5].
Proof.
  split; [lia|]. apply (chunkEvery_tiles Z [1; 2; 3; 4; 5] 2). lia.
Defined.

(** Leaving [step] out is the same as passing [count]. *)
Lemma chunkEvery_default_step {T : Type} (xs : list T) (count : Z) :
  Streams.chunkEvery xs count None = Streams.chunkEvery xs count (Some count).
Proof.
  reflexivity.
Qed.

(** ** Non-positive [count], [step] and [n] *)

Lemma starts_zero (a d : nat) : Spec.starts 0 a d = [].
Proof.
  apply starts_none. intros o _. apply divides_zero.
Qed.

Lemma chunk_run_opp {T : Type} (count step : Z) (xs : list T) :
  forall st,
    Streams.chunk_run count (- step) st xs = Streams.chunk_run count step st xs.
Proof.
  induction xs as [|x xs IH]; intros st; [reflexivity|].
  cbn [Streams.chunk_run]. unfold Streams.chunk_step.
  rewrite divides_opp.
  destruct (last_window _) as [w|]; [destruct (_ =? _)|]; now rewrite IH.
Qed.

Lemma chunkEvery_step_zero {T : Type} (xs : list T) (count : Z) :
  Streams.chunkEvery xs count (Some 0) = [].
Proof.
  destruct (Z.lt_ge_cases 0 count) as [Hpos|Hneg].
  - rewrite chunkEvery_shape by assumption. cbv zeta.
    rewrite full_starts_interval, partial_starts_interval by lia.
    now rewrite !starts_zero.
  - rewrite chunkEvery_never_closes by assumption. cbv zeta.
    now rewrite starts_zero.
Qed.

(** C6, as the code has it.  No operator tests its arguments, and no
    call is rejected.  With [n <= 0]: [take] yields nothing and [drop]
    yields every item; [chunkEvery] with [count = n] never closes a
    window and yields, when the source ends, each window it opened, once;
    [chunkEvery] with [step = n] opens its windows as with [step = -n],
    and none with [step = 0]. *)
Theorem nonpositive_arguments_run :
  forall (T : Type) (xs : list T) (n : Z),
    n <= 0 ->
    Streams.take_call xs n = Normal [] /\
    Streams.drop_call xs n = Normal xs /\
    ~ Spec.rejected (Streams.dropEvery_call xs n) /\
    (forall step,
        exists chunks,
          Streams.chunkEvery_call xs n step = Normal chunks /\
          Permutation
            chunks
            (List.map (fun o => skipn o xs)
                      (Spec.starts (match step with Some s => s | None => n end)
                                   0 (length xs)))) /\
    (forall count,
        Streams.chunkEvery_call xs count (Some n)
        = Streams.chunkEvery_call xs count (Some (- n))) /\
    (forall count, Streams.chunkEvery_call xs count (Some 0) = Normal []).
Proof.
  intros T xs n Hn.
  unfold Streams.take_call, Streams.drop_call, Streams.chunkEvery_call.
  split; [|split; [|split; [|split; [|split]]]].
  - rewrite take_firstn. now replace (Z.to_nat n) with 0%nat by lia.
  - rewrite drop_skipn. now replace (Z.to_nat n) with 0%nat by lia.
  - unfold Spec.rejected, Streams.dropEvery_call. discriminate.
  - intros step. eexists. split; [reflexivity|].
    rewrite chunkEvery_never_closes by assumption. cbv zeta.
    apply Permutation_map. symmetry. apply Permutation_rev.
  - intros count. f_equal. unfold Streams.chunkEvery.
    rewrite <- (chunk_run_opp count (- n)). now rewrite Z.opp_involutive.
  - intros count. f_equal. apply chunkEvery_step_zero.
Qed.

Lemma nonpositive_arguments_run_witness :
  -1 <= 0 /\
  Streams.take_call [1; 2; 3] (-1) = Normal [] /\
  Streams.drop_call [1; 2; 3] (-1) = Normal [1; 2; 3].
Proof.
  split; [lia|].
  destruct (nonpositive_arguments_run Z [1; 2; 3] (-1)) as (Ht & Hd & _); [lia|].
  split; [exact Ht | exact Hd].
Defined.

(** C6 as stated fails: calls with a zero or negative [count], [step] or
    [n] are not rejected. *)
Lemma nonpositive_arguments_not_rejected :
  ~ Spec.rejected (Streams.take_call [1; 2; 3] 0) /\
  ~ Spec.rejected (Streams.drop_call [1; 2; 3] (-1)) /\
  ~ Spec.rejected (Streams.dropEvery_call [1; 2; 3] 0) /\
  ~ Spec.rejected (Streams.chunkEvery_call [1; 2; 3] 0 None) /\
  ~ Spec.rejected (Streams.chunkEvery_call [1; 2; 3] 2 (Some (-1))) /\
  Streams.take_call [1; 2; 3] 0 = Normal [] /\
  Streams.chunkEvery_call [1; 2; 3] (-1) (Some 2) = Normal [[3]; [1; 2; 3]].
Proof.
  unfold Spec.rejected. repeat split; discriminate.
Qed.

(** ** [chunkEvery] in [lists.js] *)

Section ListsChunkEvery.
Context {T : Type}.

Lemma last_window_some (cs : list (list T)) :
  cs <> [] -> exists w, last_window cs = Some w.
Proof.
  intros H. destruct (exists_last H) as (l & w & ->).
  exists w. apply last_window_snoc.
Qed.

Lemma chunk_step_some (count step : Z) (st : Streams.windows) (x : T) (w : list T) :
  let cs := push_all x (if divides step (Streams.i st)
                        then [] :: Streams.currents st else Streams.currents st) in
  last_window cs = Some w ->
  Streams.chunk_step count step st x
  = if Z.of_nat (length w) =? count
    then ([w], {| Streams.currents := removelast cs; Streams.i := S (Streams.i st) |})
    else ([], {| Streams.currents := cs; Streams.i := S (Streams.i st) |}).
Proof.
  intros cs Hw. unfold Streams.chunk_step. fold cs. now rewrite Hw.
Qed.

Lemma lists_chunk_loop_some (count step : Z) (cur : list (list T)) (i : nat)
      (x : T) (q : list T) (w : list T) :
  let cs := push_all x (if divides step i then [] :: cur else cur) in
  last_window cs = Some w ->
  Lists.chunk_loop count step cur i (x :: q)
  = if Z.of_nat (length w) =? count
    then (let (ys, e) := Lists.chunk_loop count step (removelast cs) (S i) q in
          (w :: ys, e))
    else Lists.chunk_loop count step cs (S i) q.
Proof.
  intros cs Hw. cbn [Lists.chunk_loop]. fold cs. now rewrite Hw.
Qed.

(** With [0 < step <= count] a window is open at every test, so the
    unguarded [.length] never meets [undefined], and the loop of
    [lists.js] yields what the loop of [streams.ts] yields. *)
Lemma lists_chunk_loop_streams (c : nat) (step : Z) :
  (0 < c)%nat -> 0 < step <= Z.of_nat c ->
  forall (q p : list T) (st : Streams.windows),
    st = snd (Streams.chunk_run (Z.of_nat c) step
                                {| Streams.currents := []; Streams.i := 0 |} p) ->
    Lists.chunk_loop (Z.of_nat c) step (Streams.currents st) (Streams.i st) q
    = (fst (Streams.chunk_run (Z.of_nat c) step st q)
         ++ Streams.currents (snd (Streams.chunk_run (Z.of_nat c) step st q)),
       None).
Proof.
  intros Hc Hstep. induction q as [|x q IH]; intros p st Hst; [reflexivity|].
  (* the state after one more item *)
  assert (Hnext : snd (Streams.chunk_step (Z.of_nat c) step st x)
                  = snd (Streams.chunk_run (Z.of_nat c) step
                           {| Streams.currents := []; Streams.i := 0 |} (p ++ [x]))).
  { rewrite chunk_run_snoc, Hst.
    destruct (Streams.chunk_run _ _ _ p) as [ys st0]. cbn [snd].
    destruct (Streams.chunk_step _ _ st0 x) as [zs st1]. reflexivity. }
  specialize (IH (p ++ [x]) _ Hnext).
  (* a window is open when the test is made *)
  assert (Hopen : exists w,
             last_window (push_all x (if divides step (Streams.i st)
                                      then [] :: Streams.currents st
                                      else Streams.currents st)) = Some w).
  { rewrite chunk_run_shape in Hst by assumption. cbn [snd] in Hst.
    rewrite Hst. cbn [Streams.currents Streams.i].
    set (j := length p). set (a := (j + 1 - c)%nat). set (d := (j - a)%nat).
    pose proof (open_then_push step p x a d ltac:(lia)) as Hpush.
    fold j in Hpush. rewrite Hpush.
    apply last_window_some.
    destruct (divides_before step j ltac:(lia)) as (o & Hdiv & Hlo & Hhi).
    assert (Ho : In o (Spec.starts step a (S d)))
      by (apply starts_in; split; [lia | assumption]).
    intros E. apply map_eq_nil in E.
    apply in_rev in Ho. rewrite E in Ho. exact Ho. }
  destruct Hopen as [w Hw].
  rewrite (lists_chunk_loop_some _ _ _ _ x q w Hw).
  cbn [Streams.chunk_run].
  rewrite (chunk_step_some _ _ st x w Hw) in *.
  destruct (Z.of_nat (length w) =? Z.of_nat c); cbn [snd Streams.currents Streams.i] in IH;
    rewrite IH; destruct (Streams.chunk_run _ _ _ q) as [zs st2]; reflexivity.
Qed.

Lemma lists_chunkEvery_streams (xs : list T) (count step : Z) :
  0 < step <= count ->
  Lists.chunkEvery xs count (Some step)
  = (Streams.chunkEvery xs count (Some step), None).
Proof.
  intros H. unfold Lists.chunkEvery, Streams.chunkEvery.
  pose proof (lists_chunk_loop_streams (Z.to_nat count) step ltac:(lia) ltac:(lia)
                                       xs [] _ eq_refl) as Hl.
  cbn [Streams.chunk_run snd Streams.currents Streams.i] in Hl.
  rewrite Z2Nat.id in Hl by lia. rewrite Hl.
  destruct (Streams.chunk_run _ _ _ xs) as [ys st]. reflexivity.
Qed.

End ListsChunkEvery.

(** With [step > count] the generator of [lists.js] throws at the first
    item that falls between two windows. *)
Lemma lists_chunkEvery_gap_throws :
  Lists.chunkEvery [1; 2; 3; 4; 5; 6; 7] 2 (Some 3) = ([[1; 2]], Some TypeError).
Proof.
  reflexivity.
Qed.

(** With [step = 0] no window is ever opened, and the first test throws:
    a TypeError at the first [next()], not an InvalidArgument at the
    call. *)
Lemma lists_chunkEvery_step_zero_throws :
  Lists.chunkEvery [1; 2; 3] 2 (Some 0) = ([], Some TypeError).
Proof.
  reflexivity.
Qed.

(** ** What [dropEvery] returns without yielding it *)

Lemma without_every_app {T : Type} (n : Z) (l1 l2 : list T) :
  forall i,
    Spec.without_every n i (l1 ++ l2)
    = Spec.without_every n i l1 ++ Spec.without_every n (i + length l1) l2.
Proof.
  induction l1 as [|x l1 IH]; intros i; cbn [app Spec.without_every length].
  - now rewrite Nat.add_0_r.
  - rewrite IH. replace (S i + length l1)%nat with (i + S (length l1))%nat by lia.
    destruct (divides n i); reflexivity.
Qed.

Lemma without_every_none {T : Type} (n : Z) (l : list T) :
  forall i,
    (forall o, (i <= o < i + length l)%nat -> divides n o = false) ->
    Spec.without_every n i l = l.
Proof.
  induction l as [|x l IH]; intros i H; [reflexivity|].
  cbn [Spec.without_every]. cbn [length] in H.
  rewrite (H i) by lia. f_equal. apply IH. intros o Ho. apply H. lia.
Qed.

Lemma dropped_tiles_from {T : Type} (xs : list T) (n : Z) :
  0 < n ->
  let c := Z.to_nat n in
  forall (m b : nat),
    divides n b = true ->
    (length xs - b <= m)%nat ->
    List.concat (List.map (fun o => skipn 1 (Spec.window c xs o))
                          (Spec.starts n b (length xs - b)))
    = Spec.without_every n b (skipn b xs).
Proof.
  intros Hn c. assert (Hc : (0 < c)%nat) by lia.
  induction m as [|m IH]; intros b Hb Hm.
  - replace (length xs - b)%nat with 0%nat by lia.
    rewrite skipn_all2 by lia. reflexivity.
  - destruct (length xs - b)%nat as [|d] eqn:Ed.
    + rewrite skipn_all2 by lia. reflexivity.
    + rewrite starts_tile by assumption. fold c.
      cbn [List.map List.concat].
      replace (S d - c)%nat with (length xs - (b + c))%nat by lia.
      rewrite IH; [ | unfold c; now apply divides_next | lia ].
      replace (skipn b xs) with (Spec.window c xs b ++ skipn (b + c) xs)
        by apply window_then_rest.
      rewrite without_every_app.
      assert (Hlen : length (Spec.window c xs b) = Nat.min c (S d)).
      { rewrite window_length. lia. }
      f_equal.
      * destruct (Spec.window c xs b) as [|x w] eqn:Ew; [cbn in Hlen; lia|].
        cbn [skipn Spec.without_every]. rewrite Hb.
        symmetry. apply without_every_none.
        cbn [length] in Hlen. intros o Ho.
        apply (divides_gap n b o); try assumption; lia.
      * destruct (Nat.le_gt_cases c (S d)) as [Hfull|Hpart].
        -- rewrite Hlen, Nat.min_l by lia. reflexivity.
        -- rewrite !skipn_all2 by lia. reflexivity.
Qed.

(** For [n > 0], the generator that [dropEvery] of [streams.ts] returns
    would yield the input without its 1st, (n+1)-th, (2n+1)-th, ... item. *)
Lemma dropEvery_returned {T : Type} (xs : list T) (n : Z) :
  0 < n ->
  Streams.returned (Streams.dropEvery xs n) = Spec.without_every n 0 xs.
Proof.
  intros Hn. unfold Streams.dropEvery. cbn [Streams.returned].
  rewrite streams_concat, streams_map, chunkEvery_default_step.
  destruct (chunkEvery_tiling_shape xs n Hn) as (_ & Hshape & Hall).
  rewrite Hshape, <- map_app, Hall, map_map.
  rewrite (map_ext _ (fun o => skipn 1 (Spec.window (Z.to_nat n) xs o)))
    by (intros o; apply drop_skipn).
  pose proof (dropped_tiles_from xs n Hn (length xs) 0 (divides_origin n Hn) ltac:(lia))
    as H.
  cbv zeta in H. now rewrite Nat.sub_0_r in H.
Qed.

(** The loop of [lists.js] removes the n-th, 2n-th, ... item instead. *)
Lemma lists_dropEvery_shifted {T : Type} (xs : list T) (n : Z) :
  Lists.dropEvery xs n = Spec.without_every n 1 xs.
Proof.
  unfold Lists.dropEvery. generalize 0%nat.
  induction xs as [|x xs IH]; intros count; [reflexivity|].
  cbn [Lists.dropEvery_loop Spec.without_every].
  rewrite IH. destruct (divides n (S count)); reflexivity.
Qed.

(** * Further properties of the operators *)

(** Neighbours in a list that is locally related are related. *)
Lemma sorted_neighbours {A : Type} (R : A -> A -> Prop) (l1 l2 : list A) (a b : A) :
  Sorted R (l1 ++ a :: b :: l2) -> R a b.
Proof.
  induction l1 as [|x l1 IH]; cbn; intros H.
  - apply Sorted_inv in H as [_ H]. now apply HdRel_inv in H.
  - apply Sorted_inv in H as [H _]. now apply IH.
Qed.

(** ** [chunkBy] *)

Section ChunkBy.
Context {T : Type} (f : T -> value).

Lemma chunkBy_loop_concat (xs : list T) :
  forall current lastValue,
    List.concat (Streams.chunkBy_loop f current lastValue xs) = current ++ xs.
Proof.
  induction xs as [|item rest IH]; intros current lastValue;
    cbn [Streams.chunkBy_loop].
  - destruct current; cbn; now rewrite ?app_nil_r.
  - destruct (strict_neq (f item) lastValue).
    + rewrite concat_app, IH. destruct current; cbn; now rewrite ?app_nil_r.
    + rewrite IH. now rewrite <- app_assoc.
Qed.

Lemma chunkBy_loop_nonempty (xs : list T) :
  forall current lastValue,
    Forall (fun c => c <> []) (Streams.chunkBy_loop f current lastValue xs).
Proof.
  induction xs as [|item rest IH]; intros current lastValue;
    cbn [Streams.chunkBy_loop].
  - destruct current; cbn; [constructor|].
    constructor; [discriminate | constructor].
  - destruct (strict_neq (f item) lastValue); [|apply IH].
    apply Forall_app. split; [|apply IH].
    destruct current; cbn; [constructor|].
    constructor; [discriminate | constructor].
Qed.

(** While [current] is not empty, the next chunk to come out starts with
    it. *)
Lemma chunkBy_loop_head (xs : list T) :
  forall current lastValue,
    current <> [] ->
    exists more tl,
      Streams.chunkBy_loop f current lastValue xs = (current ++ more) :: tl.
Proof.
  induction xs as [|item rest IH]; intros current lastValue Hne;
    cbn [Streams.chunkBy_loop].
  - destruct current as [|x current]; [contradiction|].
    exists [], []. cbn. now rewrite app_nil_r.
  - destruct (strict_neq (f item) lastValue).
    + destruct current as [|x current]; [contradiction|].
      exists [], (Streams.chunkBy_loop f [item] (f item) rest).
      cbn. now rewrite app_nil_r.
    + destruct (IH (current ++ [item]) lastValue) as (more & tl & E).
      { now destruct current. }
      exists (item :: more), tl. rewrite E. now rewrite <- app_assoc.
Qed.

Lemma chunkBy_loop_one_key (xs : list T) :
  forall current lastValue,
    (forall x, In x current -> f x = lastValue) ->
    Forall (fun c => forall x y, In x c -> In y c -> f x = f y)
           (Streams.chunkBy_loop f current lastValue xs).
Proof.
  induction xs as [|item rest IH]; intros current lastValue Hkey;
    cbn [Streams.chunkBy_loop].
  - destruct current as [|c0 current]; cbn [length Nat.ltb Nat.leb]; [constructor|].
    constructor; [|constructor].
    intros x y Hx Hy. now rewrite (Hkey x Hx), (Hkey y Hy).
  - destruct (strict_neq (f item) lastValue) eqn:E.
    + apply Forall_app. split.
      * destruct current as [|c0 current]; cbn [length Nat.ltb Nat.leb]; [constructor|].
        constructor; [|constructor].
        intros x y Hx Hy. now rewrite (Hkey x Hx), (Hkey y Hy).
      * apply IH. intros x [<-|[]]. reflexivity.
    + apply IH. intros x Hx. apply in_app_or in Hx as [Hx|[<-|[]]].
      * now apply Hkey.
      * unfold strict_neq in E. apply negb_false_iff in E.
        now apply strict_eq_true.
Qed.

Lemma chunkBy_loop_boundaries (xs : list T) :
  forall current lastValue,
    (forall x, In x current -> f x = lastValue) ->
    Sorted (Spec.chunk_boundary f) (Streams.chunkBy_loop f current lastValue xs).
Proof.
  induction xs as [|item rest IH]; intros current lastValue Hkey;
    cbn [Streams.chunkBy_loop].
  - destruct current; cbn; repeat constructor.
  - destruct (strict_neq (f item) lastValue) eqn:E.
    + assert (Hrest : Sorted (Spec.chunk_boundary f)
                             (Streams.chunkBy_loop f [item] (f item) rest)).
      { apply IH. intros x [<-|[]]. reflexivity. }
      destruct current as [|c0 current]; cbn [length Nat.ltb Nat.leb app];
        [exact Hrest|].
      constructor; [exact Hrest|].
      destruct (chunkBy_loop_head rest [item] (f item)) as (more & tl & Eh);
        [discriminate|].
      rewrite Eh. constructor. cbn. intros a Ha. now rewrite (Hkey a Ha).
    + apply IH. intros x Hx. apply in_app_or in Hx as [Hx|[<-|[]]].
      * now apply Hkey.
      * unfold strict_neq in E. apply negb_false_iff in E.
        now apply strict_eq_true.
Qed.

End ChunkBy.

(** X1.  The chunks of [chunkBy], concatenated, are the input, and no
    chunk is empty. *)
Theorem chunkBy_keeps_everything :
  forall (T : Type) (xs : list T) (f : T -> value),
    Streams.concat (Streams.chunkBy xs f) = xs /\
    Forall (fun c => c <> []) (Streams.chunkBy xs f).
Proof.
  intros T xs f. split.
  - rewrite streams_concat. apply (chunkBy_loop_concat f xs [] VUndefined).
  - apply chunkBy_loop_nonempty.
Qed.

(** X2.  All items of a chunk of [chunkBy] have the same key, and the
    first item of the next chunk has a key that is [!==] to it. *)
Theorem chunkBy_runs :
  forall (T : Type) (xs : list T) (f : T -> value),
    Forall (fun c => forall x y, In x c -> In y c -> f x = f y)
           (Streams.chunkBy xs f) /\
    forall (before after : list (list T)) (c1 c2 : list T) (a b : T),
      Streams.chunkBy xs f = before ++ c1 :: (b :: c2) :: after ->
      In a c1 ->
      strict_neq (f b) (f a) = true.
Proof.
  intros T xs f. split.
  - apply chunkBy_loop_one_key. intros x [].
  - intros before after c1 c2 a b E Ha.
    pose proof (chunkBy_loop_boundaries f xs [] VUndefined ltac:(intros x [])) as H.
    fold (Streams.chunkBy xs f) in H. rewrite E in H.
    apply sorted_neighbours in H. now apply H.
Qed.

Lemma chunkBy_runs_witness :
  Streams.chunkBy [1; 1; 2] VNum = [] ++ [1; 1] :: (2 :: []) :: [] /\
  In 1 [1; 1] /\
  strict_neq (VNum 2) (VNum 1) = true.
Proof.
  split; [reflexivity|]. split; [now left|].
  destruct (chunkBy_runs Z [1; 1; 2] VNum) as [_ H].
  exact (H [] [] [1; 1] [] 1 2 eq_refl (or_introl eq_refl)).
Defined.

(** ** [dedup] once more *)

Lemma dedup_loop_idempotent {T : Type} (f : T -> value) (xs : list T) :
  forall v,
    Streams.dedup_loop f v (Streams.dedup_loop f v xs) = Streams.dedup_loop f v xs.
Proof.
  induction xs as [|x xs IH]; intros v; cbn [Streams.dedup_loop]; [reflexivity|].
  destruct (strict_neq (f x) v) eqn:E.
  - cbn [Streams.dedup_loop]. rewrite E. f_equal. apply IH.
  - apply IH.
Qed.

(** X3.  [dedup] is idempotent: applied to its own output, with the same
    key function, it yields that output. *)
Theorem dedup_idempotent :
  forall (T : Type) (xs : list T) (f : T -> value),
    Streams.dedup (Streams.dedup xs f) f = Streams.dedup xs f.
Proof.
  intros T xs f. apply dedup_loop_idempotent.
Qed.

Lemma dedup_loop_sorted {T : Type} (f : T -> value) (xs : list T) :
  forall v,
    Sorted (fun a b => strict_neq (f b) (f a) = true) (Streams.dedup_loop f v xs) /\
    match Streams.dedup_loop f v xs with
    | [] => True
    | b :: _ => strict_neq (f b) v = true
    end.
Proof.
  induction xs as [|x xs IH]; intros v; cbn [Streams.dedup_loop].
  - split; constructor.
  - destruct (strict_neq (f x) v) eqn:E; [|apply IH].
    destruct (IH (f x)) as [Hs Hh]. split; [|exact E].
    constructor; [exact Hs|].
    destruct (Streams.dedup_loop f (f x) xs); constructor. exact Hh.
Qed.

Lemma dedup_loop_sublist {T : Type} (f : T -> value) (xs : list T) :
  forall v x, In x (Streams.dedup_loop f v xs) -> In x xs.
Proof.
  induction xs as [|y xs IH]; intros v x; cbn [Streams.dedup_loop]; [tauto|].
  destruct (strict_neq (f y) v).
  - intros [<-|H]; [now left | right; eapply IH; eassumption].
  - intros H. right. eapply IH; eassumption.
Qed.

(** X4.  In what [dedup] yields, an item and the one after it never have
    keys that are [===]; and every item yielded is an item of the
    input. *)
Theorem dedup_no_repeats :
  forall (T : Type) (xs : list T) (f : T -> value),
    (forall x, In x (Streams.dedup xs f) -> In x xs) /\
    forall (before after : list T) (a b : T),
      Streams.dedup xs f = before ++ a :: b :: after ->
      strict_eq (f b) (f a) = false.
Proof.
  intros T xs f. split.
  - apply dedup_loop_sublist.
  - intros before after a b E.
    destruct (dedup_loop_sorted f xs VUndefined) as [H _].
    fold (Streams.dedup xs f) in H. rewrite E in H.
    apply sorted_neighbours in H. unfold strict_neq in H.
    now apply negb_true_iff in H.
Qed.

Lemma dedup_no_repeats_witness :
  Streams.dedup [1; 1; 2; 2] VNum = [] ++ 1 :: 2 :: [] /\
  strict_eq (VNum 2) (VNum 1) = false.
Proof.
  split; [reflexivity|].
  destruct (dedup_no_repeats Z [1; 1; 2; 2] VNum) as [_ H].
  exact (H [] [] 1 2 eq_refl).
Defined.

(** ** [map], [filter], [reject], [count], [flatMap] *)

(** X5.  Filtering the mapped items by [p] gives the same as mapping the
    items filtered by [p] after [f]. *)
Theorem filter_after_map :
  forall (T U : Type) (xs : list T) (f : T -> U) (p : U -> value),
    Streams.filter (Streams.map xs f) p
    = Streams.map (Streams.filter xs (fun x => p (f x))) f.
Proof.
  intros T U xs f p. induction xs as [|x xs IH]; [reflexivity|].
  cbn [Streams.map Streams.filter].
  destruct (truthy (p (f x))); cbn [Streams.map]; now rewrite IH.
Qed.

Lemma count_loop_filter {T : Type} (f : T -> value) (xs : list T) :
  forall count,
    Streams.count_loop f count xs = (count + length (Streams.filter xs f))%nat.
Proof.
  induction xs as [|x xs IH]; intros count;
    cbn [Streams.count_loop Streams.filter length]; [lia|].
  destruct (truthy (f x)); rewrite IH; cbn [length]; lia.
Qed.

(** X6.  [filter] and [reject] split the input: every item goes to
    exactly one of them, and [count] is the number of items [filter]
    keeps. *)
Theorem filter_reject_partition :
  forall (T : Type) (xs : list T) (f : T -> value),
    Permutation (Streams.filter xs f ++ Streams.reject xs f) xs /\
    Streams.count xs f = length (Streams.filter xs f) /\
    (Streams.count xs f + length (Streams.reject xs f) = length xs)%nat.
Proof.
  intros T xs f.
  assert (Hperm : Permutation (Streams.filter xs f ++ Streams.reject xs f) xs).
  { unfold Streams.reject. induction xs as [|x xs IH]; [constructor|].
    cbn [Streams.filter truthy]. destruct (truthy (f x)); cbn [negb app].
    - now constructor.
    - symmetry. apply Permutation_cons_app. now symmetry. }
  assert (Hcount : Streams.count xs f = length (Streams.filter xs f))
    by apply (count_loop_filter f xs 0).
  repeat split; try assumption.
  rewrite Hcount, <- length_app. now apply Permutation_length.
Qed.

(** [flatMap] is [map] followed by [concat]. *)
Lemma flatMap_is_concat_of_map :
  forall (T U : Type) (xs : list T) (f : T -> list U),
    Streams.flatMap xs f = Streams.concat (Streams.map xs f).
Proof.
  intros T U xs f. induction xs as [|x xs IH]; [reflexivity|].
  cbn [Streams.flatMap Streams.map Streams.concat]. now rewrite IH.
Qed.

(** ** [at], [find], [findIndex], [findValue], [member] *)

Lemma at_loop_nth {T : Type} (n : Z) (d : T) (xs : list T) :
  forall count,
    Z.of_nat count <= n ->
    Streams.at_loop n count d xs = nth (Z.to_nat (n - Z.of_nat count)) xs d.
Proof.
  induction xs as [|x xs IH]; intros count Hc; cbn [Streams.at_loop].
  - now destruct (Z.to_nat (n - Z.of_nat count)).
  - destruct (Z.eqb_spec (Z.of_nat count) n) as [E|E].
    + replace (Z.to_nat (n - Z.of_nat count)) with 0%nat by lia. reflexivity.
    + rewrite IH by lia.
      replace (Z.to_nat (n - Z.of_nat count))
        with (S (Z.to_nat (n - Z.of_nat (S count)))) by lia.
      reflexivity.
Qed.

Lemma at_loop_passed {T : Type} (n : Z) (d : T) (xs : list T) :
  forall count,
    n < Z.of_nat count -> Streams.at_loop n count d xs = d.
Proof.
  induction xs as [|x xs IH]; intros count Hc; cbn [Streams.at_loop]; [reflexivity|].
  destruct (Z.eqb_spec (Z.of_nat count) n) as [E|E]; [lia|].
  apply IH. lia.
Qed.

(** X8.  [at] returns the item at the zero-based index [n] when there is
    one, and [defaultValue] when [n] is negative or not below the number
    of items. *)
Theorem at_index_or_default :
  forall (T : Type) (xs : list T) (n : Z) (d : T),
    (0 <= n < Z.of_nat (length xs) ->
     nth_error xs (Z.to_nat n) = Some (Streams.at_ xs n d)) /\
    (n < 0 \/ Z.of_nat (length xs) <= n -> Streams.at_ xs n d = d).
Proof.
  intros T xs n d. unfold Streams.at_. split.
  - intros Hn. rewrite at_loop_nth by (cbn; lia).
    replace (n - Z.of_nat 0) with n by (cbn; lia).
    apply nth_error_nth'. lia.
  - intros [Hn|Hn].
    + apply at_loop_passed. cbn. lia.
    + rewrite at_loop_nth by (cbn; lia). apply nth_overflow. cbn. lia.
Qed.

Lemma at_index_or_default_witness :
  nth_error [10; 20; 30] (Z.to_nat 1) = Some (Streams.at_ [10; 20; 30] 1 0) /\
  Streams.at_ [10; 20; 30] (-1) 0 = 0 /\
  Streams.at_ [10; 20; 30] 3 0 = 0.
Proof.
  destruct (at_index_or_default Z [10; 20; 30] 1 0) as [Hin _].
  destruct (at_index_or_default Z [10; 20; 30] (-1) 0) as [_ Hneg].
  destruct (at_index_or_default Z [10; 20; 30] 3 0) as [_ Hout].
  split; [apply Hin; cbn; lia|].
  split; [apply Hneg; left; lia | apply Hout; right; cbn; lia].
Defined.

Lemma findIndex_loop_some {T : Type} (f : T -> value) (xs : list T) :
  forall count i,
    Streams.findIndex_loop f count xs = Some i <->
    exists pre x post,
      xs = pre ++ x :: post /\ i = (count + length pre)%nat /\
      truthy (f x) = true /\
      forall y, In y pre -> truthy (f y) = false.
Proof.
  induction xs as [|x xs IH]; intros count i; cbn [Streams.findIndex_loop].
  - split; [discriminate|]. intros (pre & y & post & E & _). now destruct pre.
  - destruct (truthy (f x)) eqn:Ex.
    + split.
      * intros [= <-]. exists [], x, xs. cbn [app length].
        split; [reflexivity|]. split; [lia|]. split; [exact Ex|]. intros y [].
      * intros (pre & y & post & E & -> & Hy & Hpre).
        destruct pre as [|z pre]; cbn [length]; [f_equal; lia|].
        cbn [app] in E. injection E as <- _.
        rewrite (Hpre x (or_introl eq_refl)) in Ex. discriminate.
    + rewrite IH. split.
      * intros (pre & y & post & -> & -> & Hy & Hpre).
        exists (x :: pre), y, post. cbn [app length].
        split; [reflexivity|]. split; [lia|]. split; [exact Hy|].
        intros z [<-|Hz]; [exact Ex | now apply Hpre].
      * intros (pre & y & post & E & -> & Hy & Hpre).
        destruct pre as [|z pre]; cbn [app length] in *.
        -- injection E as <- _. rewrite Hy in Ex. discriminate.
        -- injection E as <- ->. exists pre, y, post.
           split; [reflexivity|]. split; [lia|]. split; [exact Hy|].
           intros w Hw. apply Hpre. now right.
Qed.

(** X9.  [findIndex] returns [i] exactly when the item at index [i] passes
    the test and no item before it does. *)
Theorem findIndex_first_match :
  forall (T : Type) (xs : list T) (f : T -> value) (i : nat),
    Streams.findIndex xs f = Some i <->
    exists pre x post,
      xs = pre ++ x :: post /\ i = length pre /\
      truthy (f x) = true /\
      forall y, In y pre -> truthy (f y) = false.
Proof.
  intros T xs f i. unfold Streams.findIndex.
  rewrite findIndex_loop_some. cbn [Nat.add]. reflexivity.
Qed.

Lemma find_by_index_loop {T : Type} (f : T -> value) (d : T) (xs : list T) :
  forall count,
    Streams.find xs f d
    = match Streams.findIndex_loop f count xs with
      | Some i => Streams.at_loop (Z.of_nat i) count d xs
      | None => d
      end.
Proof.
  induction xs as [|x xs IH]; intros count;
    cbn [Streams.find Streams.findIndex_loop]; [reflexivity|].
  destruct (truthy (f x)) eqn:Ex.
  - cbn [Streams.at_loop]. now rewrite Z.eqb_refl.
  - rewrite (IH (S count)).
    destruct (Streams.findIndex_loop f (S count) xs) as [i|] eqn:Ei; [|reflexivity].
    cbn [Streams.at_loop].
    apply findIndex_loop_some in Ei as (pre & y & post & _ & -> & _).
    destruct (Z.eqb_spec (Z.of_nat count) (Z.of_nat (S count + length pre))); [lia|].
    reflexivity.
Qed.

(** X10.  [find] returns the item at the index [findIndex] returns, and
    [defaultValue] when [findIndex] returns [undefined]; [any] tells
    which of the two it is. *)
Theorem find_at_findIndex :
  forall (T : Type) (xs : list T) (f : T -> value) (d : T),
    Streams.find xs f d
    = match Streams.findIndex xs f with
      | Some i => Streams.at_ xs (Z.of_nat i) d
      | None => d
      end /\
    Streams.any xs f
    = match Streams.findIndex xs f with Some _ => true | None => false end.
Proof.
  intros T xs f d. split; [apply find_by_index_loop|].
  rewrite streams_any_existsb. unfold Streams.findIndex. generalize 0%nat.
  induction xs as [|x xs IH]; intros count; cbn [existsb Streams.findIndex_loop];
    [reflexivity|].
  destruct (truthy (f x)); [reflexivity | apply IH].
Qed.

(** X11.  [findValue] is [find], with the identity test, over the mapped
    items. *)
Theorem findValue_is_find_of_map :
  forall (T : Type) (xs : list T) (f : T -> value) (d : value),
    Streams.findValue xs f d = Streams.find (Streams.map xs f) (fun v => v) d.
Proof.
  intros T xs f d. induction xs as [|x xs IH]; [reflexivity|].
  cbn [Streams.findValue Streams.map Streams.find].
  destruct (truthy (f x)); [reflexivity | exact IH].
Qed.

Lemma strict_eq_refl (a : value) : a <> VNaN -> strict_eq a a = true.
Proof.
  destruct a; cbn; intros H; try reflexivity.
  - now destruct b.
  - apply Z.eqb_refl.
  - contradiction.
Qed.

(** X12.  [member] compares with [===]: NaN is a member of no sequence,
    and any other value is a member exactly when it occurs. *)
Theorem member_is_strict :
  forall (xs : list value) (e : value),
    Streams.member xs VNaN = false /\
    (e <> VNaN -> (Streams.member xs e = true <-> In e xs)).
Proof.
  intros xs e. split.
  - induction xs as [|x xs IH]; [reflexivity|].
    cbn [Streams.member]. now destruct x.
  - intros He. induction xs as [|x xs IH]; cbn [Streams.member In].
    + split; [discriminate | tauto].
    + destruct (strict_eq x e) eqn:E.
      * apply strict_eq_true in E. tauto.
      * rewrite IH. split; [tauto|]. intros [->|H]; [|exact H].
        rewrite strict_eq_refl in E by assumption. discriminate.
Qed.

Lemma member_is_strict_witness :
  Streams.member [VNum 1; VNaN] VNaN = false /\
  (Streams.member [VNum 1; VNaN] (VNum 1) = true <-> In (VNum 1) [VNum 1; VNaN]).
Proof.
  destruct (member_is_strict [VNum 1; VNaN] (VNum 1)) as [Hnan Hin].
  split; [exact Hnan | apply Hin; discriminate].
Defined.

(** ** [dropWhile] *)

Lemma dropWhile_loop_done {T : Type} (f : T -> value) (xs : list T) :
  Streams.dropWhile_loop f false xs = xs.
Proof.
  induction xs as [|x xs IH]; cbn [Streams.dropWhile_loop andb]; [reflexivity|].
  now rewrite IH.
Qed.

(** X13.  [dropWhile] removes the longest prefix on which [fun] is truthy
    and yields all the rest, whatever [fun] says of the later items. *)
Theorem dropWhile_splits :
  forall (T : Type) (xs : list T) (f : T -> value),
    exists pre,
      xs = pre ++ Streams.dropWhile xs f /\
      Forall (fun x => truthy (f x) = true) pre /\
      match Streams.dropWhile xs f with
      | [] => True
      | x :: _ => truthy (f x) = false
      end.
Proof.
  intros T xs f. unfold Streams.dropWhile.
  induction xs as [|x xs IH]; cbn [Streams.dropWhile_loop andb].
  - exists []. repeat split. constructor.
  - destruct (truthy (f x)) eqn:Ex.
    + destruct IH as (pre & E & Hpre & Hhd).
      exists (x :: pre). cbn [app]. split; [now f_equal|].
      split; [now constructor | exact Hhd].
    + exists []. rewrite dropWhile_loop_done. repeat split; [constructor | exact Ex].
Qed.

(** ** [intersperse], [mapIntersperse], [mapEvery] *)

Lemma intersperse_loop_rest {T : Type} (sep : T) (xs : list T) :
  Streams.intersperse_loop sep false xs = List.flat_map (fun y => [sep; y]) xs.
Proof.
  induction xs as [|x xs IH]; cbn [Streams.intersperse_loop flat_map app];
    [reflexivity | now rewrite IH].
Qed.

(** X14.  [intersperse] yields the first item, and then the separator
    before each further item: [2 n - 1] values for [n > 0] items, none
    for none. *)
Theorem intersperse_shape :
  forall (T : Type) (xs : list T) (sep : T),
    Streams.intersperse xs sep
    = match xs with
      | [] => []
      | x :: rest => x :: List.flat_map (fun y => [sep; y]) rest
      end /\
    length (Streams.intersperse xs sep) = (2 * length xs - 1)%nat.
Proof.
  intros T xs sep. unfold Streams.intersperse.
  destruct xs as [|x rest]; [split; reflexivity|].
  cbn [Streams.intersperse_loop]. rewrite intersperse_loop_rest.
  split; [reflexivity|]. cbn [length].
  replace (2 * S (length rest) - 1)%nat with (S (2 * length rest)) by lia.
  f_equal. induction rest as [|y rest IH]; [reflexivity|].
  cbn [flat_map app length]. rewrite IH. lia.
Qed.

(** X15.  [mapIntersperse] yields what [intersperse] yields over the
    mapped items. *)
Theorem mapIntersperse_fuses :
  forall (T U : Type) (xs : list T) (f : T -> U) (sep : U),
    Streams.mapIntersperse xs f sep
    = Streams.intersperse (Streams.map xs f) sep.
Proof.
  intros T U xs f sep. unfold Streams.mapIntersperse, Streams.intersperse.
  generalize true.
  induction xs as [|x xs IH]; intros first; [reflexivity|].
  cbn [Streams.mapIntersperse_loop Streams.map Streams.intersperse_loop].
  destruct first; now rewrite IH.
Qed.

Lemma mapEvery_loop_nth {T : Type} (n : Z) (f : T -> T) (xs : list T) :
  forall count k,
    nth_error (Streams.mapEvery_loop n f count xs) k
    = option_map (fun x => if divides n (S (count + k)) then f x else x)
                 (nth_error xs k).
Proof.
  induction xs as [|x xs IH]; intros count k; cbn [Streams.mapEvery_loop].
  - now destruct k.
  - destruct k as [|k].
    + rewrite Nat.add_0_r. destruct (divides n (S count)); reflexivity.
    + replace (S (count + S k)) with (S (S count + k)) by lia.
      destruct (divides n (S count)); cbn [nth_error]; apply IH.
Qed.

Lemma mapEvery_loop_length {T : Type} (n : Z) (f : T -> T) (xs : list T) :
  forall count, length (Streams.mapEvery_loop n f count xs) = length xs.
Proof.
  induction xs as [|x xs IH]; intros count; cbn [Streams.mapEvery_loop];
    [reflexivity|].
  destruct (divides n (S count)); cbn [length]; now rewrite IH.
Qed.

(** X16.  [mapEvery] yields as many values as there are items; the value
    at zero-based position [k] is [fun] of the item when [(k + 1) % n ===
    0], and the item itself otherwise. *)
Theorem mapEvery_positions :
  forall (T : Type) (xs : list T) (n : Z) (f : T -> T) (k : nat),
    length (Streams.mapEvery xs n f) = length xs /\
    nth_error (Streams.mapEvery xs n f) k
    = option_map (fun x => if divides n (S k) then f x else x) (nth_error xs k).
Proof.
  intros T xs n f k. split.
  - apply mapEvery_loop_length.
  - apply (mapEvery_loop_nth n f xs 0 k).
Qed.

(** ** [frequencies] and [groupBy] *)

Lemma same_value_zero_eq (a b : value) :
  JSMap.same_value_zero a b = true <-> a = b.
Proof.
  split.
  - destruct a, b; cbn; try discriminate; try reflexivity; intros H.
    + apply Bool.eqb_prop in H. now subst.
    + apply Z.eqb_eq in H. now subst.
  - intros <-. destruct a; cbn; try reflexivity.
    + now destruct b.
    + apply Z.eqb_refl.
Qed.

Lemma same_value_zero_neq (a b : value) :
  JSMap.same_value_zero a b = false <-> a <> b.
Proof.
  rewrite <- same_value_zero_eq. now destruct (JSMap.same_value_zero a b).
Qed.

(** Reading a map after a write. *)
Lemma get_set {V : Type} (m : JSMap.t V) (k k' : value) (v : V) :
  JSMap.get (JSMap.set m k v) k'
  = if JSMap.same_value_zero k k' then Some v else JSMap.get m k'.
Proof.
  induction m as [|[k0 v0] m IH]; cbn [JSMap.set JSMap.get]; [reflexivity|].
  destruct (JSMap.same_value_zero k0 k) eqn:E0; cbn [JSMap.get].
  - apply same_value_zero_eq in E0. subst k0.
    now destruct (JSMap.same_value_zero k k').
  - rewrite IH. destruct (JSMap.same_value_zero k0 k') eqn:E1; [|reflexivity].
    apply same_value_zero_eq in E1. subst k'. apply same_value_zero_neq in E0.
    destruct (JSMap.same_value_zero k k0) eqn:E2; [|reflexivity].
    apply same_value_zero_eq in E2. congruence.
Qed.

Lemma set_keys {V : Type} (m : JSMap.t V) (k : value) (v : V) :
  List.map fst (JSMap.set m k v)
  = match JSMap.get m k with
    | Some _ => List.map fst m
    | None => List.map fst m ++ [k]
    end.
Proof.
  induction m as [|[k0 v0] m IH]; cbn [JSMap.set JSMap.get List.map fst app];
    [reflexivity|].
  destruct (JSMap.same_value_zero k0 k); cbn [List.map fst]; [reflexivity|].
  rewrite IH. now destruct (JSMap.get m k).
Qed.

Lemma get_none_not_key {V : Type} (m : JSMap.t V) (k : value) :
  JSMap.get m k = None -> ~ In k (List.map fst m).
Proof.
  induction m as [|[k0 v0] m IH]; cbn [JSMap.get List.map fst In]; [tauto|].
  destruct (JSMap.same_value_zero k0 k) eqn:E; [discriminate|].
  apply same_value_zero_neq in E. intros H [Hk|Hk]; [contradiction | now apply IH].
Qed.

Lemma set_keys_nodup {V : Type} (m : JSMap.t V) (k : value) (v : V) :
  NoDup (List.map fst m) -> NoDup (List.map fst (JSMap.set m k v)).
Proof.
  intros H. rewrite set_keys. destruct (JSMap.get m k) eqn:E; [exact H|].
  apply NoDup_app; [exact H | repeat constructor; intros [] | ].
  intros x Hx [<-|[]]. now apply (get_none_not_key m k).
Qed.

Section Frequencies.
Context {T : Type} (f : T -> value).

Lemma frequencies_loop_get (xs : list T) (k : value) :
  forall m,
    JSMap.get (Streams.frequencies_loop f m xs) k
    = match JSMap.get m k with
      | Some c => Some (c + Spec.occurrences f k xs)%nat
      | None => match Spec.occurrences f k xs with
                | O => None
                | S c => Some (S c)
                end
      end.
Proof.
  unfold Spec.occurrences.
  induction xs as [|x xs IH]; intros m; cbn [Streams.frequencies_loop List.filter].
  - cbn [length]. destruct (JSMap.get m k); [f_equal; lia | reflexivity].
  - rewrite IH, get_set.
    destruct (JSMap.same_value_zero (f x) k) eqn:E; cbn [length].
    + apply same_value_zero_eq in E. rewrite E.
      destruct (JSMap.get m k); f_equal; lia.
    + destruct (JSMap.get m k); reflexivity.
Qed.

Lemma set_count_sum (m : JSMap.t nat) (k : value) :
  list_sum (List.map snd
              (JSMap.set m k (match JSMap.get m k with Some c => c | None => 0 end + 1)%nat))
  = S (list_sum (List.map snd m)).
Proof.
  induction m as [|[k0 c0] m IH]; cbn [JSMap.set JSMap.get]; [reflexivity|].
  destruct (JSMap.same_value_zero k0 k); cbn [List.map snd];
    unfold list_sum in *; cbn [fold_right].
  - lia.
  - rewrite IH. lia.
Qed.

Lemma frequencies_loop_sum (xs : list T) :
  forall m,
    list_sum (List.map snd (Streams.frequencies_loop f m xs))
    = (list_sum (List.map snd m) + length xs)%nat.
Proof.
  induction xs as [|x xs IH]; intros m; cbn [Streams.frequencies_loop length];
    [lia|].
  rewrite IH, set_count_sum. lia.
Qed.

Lemma frequencies_loop_nodup (xs : list T) :
  forall m,
    NoDup (List.map fst m) ->
    NoDup (List.map fst (Streams.frequencies_loop f m xs)).
Proof.
  induction xs as [|x xs IH]; intros m H; cbn [Streams.frequencies_loop];
    [exact H|].
  apply IH. now apply set_keys_nodup.
Qed.

End Frequencies.

(** X17.  In the map [frequencies] returns, the value under a key is the
    number of items that have this key, and a key that no item has is
    not in the map. *)
Theorem frequencies_counts :
  forall (T : Type) (xs : list T) (f : T -> value) (k : value),
    JSMap.get (Streams.frequencies xs f) k
    = match Spec.occurrences f k xs with
      | O => None
      | S c => Some (S c)
      end.
Proof.
  intros T xs f k. apply (frequencies_loop_get f xs k JSMap.empty).
Qed.

(** X18.  The map [frequencies] returns holds each key once, and its
    counts add up to the number of items. *)
Theorem frequencies_total :
  forall (T : Type) (xs : list T) (f : T -> value),
    NoDup (List.map fst (Streams.frequencies xs f)) /\
    list_sum (List.map snd (Streams.frequencies xs f)) = length xs.
Proof.
  intros T xs f. split.
  - apply frequencies_loop_nodup. constructor.
  - apply (frequencies_loop_sum f xs JSMap.empty).
Qed.

Section GroupBy.
Context {T V : Type} (key_fun : T -> value) (value_fun : T -> V).

Lemma groupBy_loop_get (xs : list T) (k : value) :
  forall m,
    JSMap.get (Streams.groupBy_loop key_fun value_fun m xs) k
    = match JSMap.get m k with
      | Some l => Some (l ++ List.map value_fun (Spec.with_key key_fun k xs))
      | None => match Spec.with_key key_fun k xs with
                | [] => None
                | items => Some (List.map value_fun items)
                end
      end.
Proof.
  unfold Spec.with_key.
  induction xs as [|x xs IH]; intros m; cbn [Streams.groupBy_loop List.filter].
  - destruct (JSMap.get m k); [now rewrite app_nil_r | reflexivity].
  - rewrite IH, get_set.
    destruct (JSMap.same_value_zero (key_fun x) k) eqn:E.
    + apply same_value_zero_eq in E. rewrite E.
      destruct (JSMap.get m k); cbn [List.map app]; [now rewrite <- app_assoc|].
      reflexivity.
    + destruct (JSMap.get m k); reflexivity.
Qed.

Lemma set_group_perm (m : JSMap.t (list V)) (k : value) (v : V) :
  Permutation
    (List.concat
       (List.map snd
          (JSMap.set m k (match JSMap.get m k with Some l => l | None => [] end ++ [v]))))
    (v :: List.concat (List.map snd m)).
Proof.
  induction m as [|[k0 l0] m IH]; cbn [JSMap.set JSMap.get]; [reflexivity|].
  destruct (JSMap.same_value_zero k0 k); cbn [List.map snd List.concat].
  - rewrite <- app_assoc. symmetry. apply Permutation_cons_app.
    apply Permutation_app_head. cbn [app]. reflexivity.
  - rewrite IH. symmetry. apply Permutation_middle.
Qed.

Lemma groupBy_loop_perm (xs : list T) :
  forall m,
    Permutation
      (List.concat (List.map snd (Streams.groupBy_loop key_fun value_fun m xs)))
      (List.concat (List.map snd m) ++ List.map value_fun xs).
Proof.
  induction xs as [|x xs IH]; intros m; cbn [Streams.groupBy_loop List.map].
  - now rewrite app_nil_r.
  - rewrite IH, set_group_perm. cbn [app]. apply Permutation_middle.
Qed.

Lemma groupBy_loop_nodup (xs : list T) :
  forall m,
    NoDup (List.map fst m) ->
    NoDup (List.map fst (Streams.groupBy_loop key_fun value_fun m xs)).
Proof.
  induction xs as [|x xs IH]; intros m H; cbn [Streams.groupBy_loop]; [exact H|].
  apply IH. now apply set_keys_nodup.
Qed.

End GroupBy.

(** X19.  In the map [groupBy] returns, the list under a key holds
    [value_fun] of the items that have this key, in the order of the
    input, and a key that no item has is not in the map. *)
Theorem groupBy_groups :
  forall (T V : Type) (xs : list T) (key_fun : T -> value) (value_fun : T -> V)
         (k : value),
    JSMap.get (Streams.groupBy xs key_fun value_fun) k
    = match Spec.with_key key_fun k xs with
      | [] => None
      | items => Some (List.map value_fun items)
      end.
Proof.
  intros T V xs key_fun value_fun k.
  apply (groupBy_loop_get key_fun value_fun xs k JSMap.empty).
Qed.

(** X20.  The map [groupBy] returns holds each key once, and its lists
    together hold [value_fun] of every item, each item once. *)
Theorem groupBy_partition :
  forall (T V : Type) (xs : list T) (key_fun : T -> value) (value_fun : T -> V),
    NoDup (List.map fst (Streams.groupBy xs key_fun value_fun)) /\
    Permutation
      (List.concat (List.map snd (Streams.groupBy xs key_fun value_fun)))
      (List.map value_fun xs).
Proof.
  intros T V xs key_fun value_fun. split.
  - apply groupBy_loop_nodup. constructor.
  - apply (groupBy_loop_perm key_fun value_fun xs JSMap.empty).
Qed.

(** ** [min], [max], [minMax], [minBy] over numbers *)

Lemma reduce_loop_min (zs : list Z) :
  forall a,
    Streams.reduce_loop (fun a b => if le a b then a else b) (VNum a)
                        (List.map VNum zs)
    = VNum (fold_left Z.min zs a).
Proof.
  induction zs as [|z zs IH]; intros a; [reflexivity|].
  cbn [List.map Streams.reduce_loop strict_eq fold_left le to_number].
  destruct (Z.leb_spec a z).
  - rewrite IH. now rewrite Z.min_l by lia.
  - rewrite IH. now rewrite Z.min_r by lia.
Qed.

Lemma reduce_loop_max (zs : list Z) :
  forall a,
    Streams.reduce_loop (fun a b => if le a b then b else a) (VNum a)
                        (List.map VNum zs)
    = VNum (fold_left Z.max zs a).
Proof.
  induction zs as [|z zs IH]; intros a; [reflexivity|].
  cbn [List.map Streams.reduce_loop strict_eq fold_left le to_number].
  destruct (Z.leb_spec a z).
  - rewrite IH. now rewrite Z.max_r by lia.
  - rewrite IH. now rewrite Z.max_l by lia.
Qed.

Lemma fold_min_least (zs : list Z) :
  forall a,
    (fold_left Z.min zs a = a \/ In (fold_left Z.min zs a) zs) /\
    fold_left Z.min zs a <= a /\
    forall z, In z zs -> fold_left Z.min zs a <= z.
Proof.
  induction zs as [|z zs IH]; intros a; cbn [fold_left In].
  - repeat split; [now left | lia | tauto].
  - destruct (IH (Z.min a z)) as (Hin & Hle & Hall).
    split; [|split].
    + destruct Hin as [E|Hin]; [|tauto].
      rewrite E. destruct (Z.min_spec a z) as [[_ ->]|[_ ->]]; tauto.
    + lia.
    + intros w [<-|Hw]; [lia | now apply Hall].
Qed.

Lemma fold_max_greatest (zs : list Z) :
  forall a,
    (fold_left Z.max zs a = a \/ In (fold_left Z.max zs a) zs) /\
    a <= fold_left Z.max zs a /\
    forall z, In z zs -> z <= fold_left Z.max zs a.
Proof.
  induction zs as [|z zs IH]; intros a; cbn [fold_left In].
  - repeat split; [now left | lia | tauto].
  - destruct (IH (Z.max a z)) as (Hin & Hle & Hall).
    split; [|split].
    + destruct Hin as [E|Hin]; [|tauto].
      rewrite E. destruct (Z.max_spec a z) as [[_ ->]|[_ ->]]; tauto.
    + lia.
    + intros w [<-|Hw]; [lia | now apply Hall].
Qed.

Lemma reduce_loop_app (g : value -> value -> value) (l1 l2 : list value) :
  forall acc,
    Streams.reduce_loop g acc (l1 ++ l2)
    = Streams.reduce_loop g (Streams.reduce_loop g acc l1) l2.
Proof.
  induction l1 as [|x l1 IH]; intros acc; [reflexivity|].
  cbn [app Streams.reduce_loop].
  destruct (strict_eq acc VUndefined); apply IH.
Qed.

Lemma defined_not_undefined (v : value) :
  v <> VUndefined -> strict_eq v VUndefined = false.
Proof.
  destruct v; cbn; congruence.
Qed.

Lemma map_num_some (l : list Z) :
  List.map Spec.num (List.map Some l) = List.map VNum l.
Proof.
  rewrite map_map. reflexivity.
Qed.

(** [max]: NaN as the accumulator stays; NaN as an item is passed over. *)
Lemma reduce_loop_max_nan (xs : list value) :
  Streams.reduce_loop (fun a b => if le a b then b else a) VNaN xs = VNaN.
Proof.
  induction xs as [|x xs IH]; [reflexivity|].
  cbn [Streams.reduce_loop strict_eq le to_number]. exact IH.
Qed.

Lemma reduce_loop_max_num (zs : list (option Z)) :
  forall x,
    Streams.reduce_loop (fun a b => if le a b then b else a) (VNum x)
                        (List.map Spec.num zs)
    = VNum (fold_left Z.max (Spec.finite zs) x).
Proof.
  induction zs as [|[z|] zs IH]; intros x; [reflexivity| |].
  - cbn [List.map Spec.num Streams.reduce_loop strict_eq le to_number].
    unfold Spec.finite. cbn [flat_map app fold_left]. fold (Spec.finite zs).
    destruct (Z.leb_spec x z); rewrite IH.
    + now rewrite Z.max_r by lia.
    + now rewrite Z.max_l by lia.
  - cbn [List.map Spec.num Streams.reduce_loop strict_eq le to_number].
    unfold Spec.finite. cbn [flat_map app]. fold (Spec.finite zs). apply IH.
Qed.

(** [min]: the accumulator stays a number, and NaN as an item replaces
    it. *)
Lemma reduce_loop_min_numeric (l : list (option Z)) :
  forall acc,
    (acc = VUndefined \/ exists n, acc = Spec.num n) ->
    Streams.reduce_loop (fun a b => if le a b then a else b) acc
                        (List.map Spec.num l) = VUndefined \/
    exists n,
      Streams.reduce_loop (fun a b => if le a b then a else b) acc
                          (List.map Spec.num l) = Spec.num n.
Proof.
  induction l as [|m l IH]; intros acc Hacc; [exact Hacc|].
  cbn [List.map Streams.reduce_loop].
  destruct Hacc as [->|[n ->]].
  - cbn [strict_eq]. apply IH. right. now exists m.
  - rewrite defined_not_undefined by (destruct n; discriminate).
    apply IH. right. destruct (le (Spec.num n) (Spec.num m)); eauto.
Qed.

Lemma reduce_loop_min_nan_last (before : list (option Z)) :
  Streams.reduce_loop (fun a b => if le a b then a else b) VUndefined
                      (List.map Spec.num (before ++ [None]))
  = VNaN.
Proof.
  rewrite map_app, reduce_loop_app.
  destruct (reduce_loop_min_numeric before VUndefined (or_introl eq_refl))
    as [->|[[z|] ->]]; reflexivity.
Qed.

(** X21.  Over a non-empty sequence of numbers, with the default
    comparator.  [max] returns the greatest of the items that are not
    NaN, except that it returns NaN when the first item is NaN.  [min]
    returns the least of the items that come after the last NaN -- the
    least of all items when none is NaN -- and NaN when the last item is
    NaN. *)
Theorem min_max_of_numbers :
  forall (x s : Z) (zs before : list (option Z)) (after : list Z),
    (exists hi,
        Streams.max (List.map Spec.num (Some x :: zs)) None = VNum hi /\
        In hi (x :: Spec.finite zs) /\
        forall z, In z (x :: Spec.finite zs) -> z <= hi) /\
    Streams.max (List.map Spec.num (None :: zs)) None = VNaN /\
    (exists lo,
        Streams.min (List.map VNum (s :: after)) None = VNum lo /\
        Streams.min
          (List.map Spec.num (before ++ None :: List.map Some (s :: after))) None
        = VNum lo /\
        In lo (s :: after) /\
        forall z, In z (s :: after) -> lo <= z) /\
    Streams.min (List.map Spec.num (before ++ [None])) None = VNaN.
Proof.
  intros x s zs before after.
  unfold Streams.min, Streams.max, Streams.reduce.
  cbn [Streams.sorter_or_default].
  split; [|split; [|split]].
  - exists (fold_left Z.max (Spec.finite zs) x).
    destruct (fold_max_greatest (Spec.finite zs) x) as (Hhi & Hhia & Hhis).
    cbn [List.map Spec.num Streams.reduce_loop strict_eq].
    rewrite reduce_loop_max_num.
    split; [reflexivity|].
    split; [destruct Hhi as [E|H]; [left; now symmetry | now right]|].
    intros z [<-|Hz]; [lia | now apply Hhis].
  - cbn [List.map Spec.num Streams.reduce_loop strict_eq].
    apply reduce_loop_max_nan.
  - exists (fold_left Z.min after s).
    destruct (fold_min_least after s) as (Hlo & Hloa & Hlos).
    split; [|split; [|split]].
    + cbn [List.map Streams.reduce_loop strict_eq]. apply reduce_loop_min.
    + replace (before ++ None :: List.map Some (s :: after))
        with ((before ++ [None]) ++ List.map Some (s :: after))
        by now rewrite <- app_assoc.
      rewrite map_app, reduce_loop_app, reduce_loop_min_nan_last, map_num_some.
      cbn [List.map Streams.reduce_loop strict_eq le to_number].
      apply reduce_loop_min.
    + destruct Hlo as [E|H]; [left; now symmetry | now right].
    + intros z [<-|Hz]; [lia | now apply Hlos].
  - apply reduce_loop_min_nan_last.
Qed.

Lemma minMax_loop (zs : list Z) :
  forall lo hi,
    Streams.reduce_arrays
      (fun acc pair =>
         let '(min, max) := acc in
         let '(item, _item) := pair in
         (if le item min then item else min, if le item max then max else item))
      (Some (VNum lo, VNum hi))
      (Streams.map (List.map VNum zs) (fun x => (x, x)))
    = Some (VNum (fold_left Z.min zs lo), VNum (fold_left Z.max zs hi)).
Proof.
  induction zs as [|z zs IH]; intros lo hi; [reflexivity|].
  cbn [List.map Streams.map Streams.reduce_arrays fold_left le to_number].
  destruct (Z.leb_spec z lo), (Z.leb_spec z hi); rewrite IH;
    rewrite ?(Z.min_r lo z), ?(Z.min_l lo z), ?(Z.max_l hi z), ?(Z.max_r hi z) by lia;
    reflexivity.
Qed.

(** The two components of [minMax] are folded as [max] and [min] fold,
    with the comparator's arguments exchanged. *)
Lemma minMax_loop_swapped (sorter : value -> value -> bool) (xs : list value) :
  forall mn mx,
    mn <> VUndefined -> mx <> VUndefined ->
    Forall (fun v => v <> VUndefined) xs ->
    Streams.reduce_arrays
      (fun acc pair =>
         let '(min, max) := acc in
         let '(item, _item) := pair in
         (if sorter item min then item else min,
          if sorter item max then max else item))
      (Some (mn, mx))
      (Streams.map xs (fun x => (x, x)))
    = Some (Streams.reduce_loop (fun a b => if sorter b a then b else a) mn xs,
            Streams.reduce_loop (fun a b => if sorter b a then a else b) mx xs).
Proof.
  induction xs as [|x xs IH]; intros mn mx Hmn Hmx Hxs; [reflexivity|].
  apply Forall_cons_iff in Hxs as [Hx Hxs].
  cbn [Streams.map Streams.reduce_arrays Streams.reduce_loop].
  rewrite !defined_not_undefined by assumption.
  apply IH; try assumption.
  - now destruct (sorter x mn).
  - now destruct (sorter x mx).
Qed.

(** X22.  Over a non-empty sequence without [undefined] items, with any
    comparator, [minMax] returns the pair of what [max] and [min] return
    when they are given the comparator with its two arguments exchanged.
    With the default comparator, over numbers none of which is NaN, that
    is the pair of what [min] and [max] return.  Over the empty sequence
    [minMax] returns [undefined]. *)
Theorem minMax_is_min_and_max :
  forall (a : value) (xs : list value) (sorter : option (value -> value -> bool))
         (n : Z) (zs : list Z),
    (Forall (fun v => v <> VUndefined) (a :: xs) ->
     let swapped := fun p q => Streams.sorter_or_default sorter q p in
     Streams.minMax (a :: xs) sorter
     = Some (Streams.max (a :: xs) (Some swapped),
             Streams.min (a :: xs) (Some swapped))) /\
    Streams.minMax (List.map VNum (n :: zs)) None
    = Some (Streams.min (List.map VNum (n :: zs)) None,
            Streams.max (List.map VNum (n :: zs)) None) /\
    Streams.minMax [] sorter = None.
Proof.
  intros a xs sorter n zs. split; [|split; [|reflexivity]].
  - intros Hdef swapped. apply Forall_cons_iff in Hdef as [Ha Hxs].
    unfold Streams.minMax, Streams.min, Streams.max, Streams.reduce.
    cbn [Streams.map Streams.reduce_arrays Streams.reduce_loop strict_eq
           Streams.sorter_or_default].
    now rewrite minMax_loop_swapped.
  - unfold Streams.minMax, Streams.min, Streams.max, Streams.reduce.
    cbn [List.map Streams.map Streams.reduce_arrays Streams.reduce_loop strict_eq
           Streams.sorter_or_default].
    now rewrite minMax_loop, reduce_loop_min, reduce_loop_max.
Qed.

Lemma minMax_is_min_and_max_witness :
  Forall (fun v => v <> VUndefined) [VNum 2; VNaN; VNum 1] /\
  Streams.minMax [VNum 2; VNaN; VNum 1] None
  = Some (Streams.max [VNum 2; VNaN; VNum 1] (Some (fun p q => le q p)),
          Streams.min [VNum 2; VNaN; VNum 1] (Some (fun p q => le q p))).
Proof.
  assert (H : Forall (fun v => v <> VUndefined) [VNum 2; VNaN; VNum 1])
    by (repeat constructor; discriminate).
  split; [exact H|].
  destruct (minMax_is_min_and_max (VNum 2) [VNaN; VNum 1] None 0 []) as [Hs _].
  exact (Hs H).
Defined.

Section MinBy.
Context (kz : value -> Z) (nan : value -> bool) (f : value -> value).
Hypothesis f_key : forall v, f v = if nan v then VNaN else VNum (kz v).

(** What the folding function of [minBy] is on keys. *)
Lemma by_key_spec (a b : value) :
  Spec.by_key f a b = if nan a || nan b then b
               else if kz a <=? kz b then a else b.
Proof.
  unfold Spec.by_key. rewrite !f_key.
  destruct (nan a), (nan b); reflexivity.
Qed.

Lemma reduce_loop_by_key (xs : list value) :
  forall acc,
    acc <> VUndefined ->
    Forall (fun v => v <> VUndefined) xs ->
    Streams.reduce_loop (Spec.by_key f) acc xs = fold_left (Spec.by_key f) xs acc.
Proof.
  induction xs as [|x xs IH]; intros acc Hacc Hxs; [reflexivity|].
  apply Forall_cons_iff in Hxs as [Hx Hxs].
  cbn [Streams.reduce_loop fold_left].
  rewrite defined_not_undefined by assumption.
  apply IH; [|assumption]. unfold Spec.by_key. now destruct (le (f acc) (f x)).
Qed.

Lemma minBy_fold (a : value) (xs : list value) :
  Forall (fun v => v <> VUndefined) (a :: xs) ->
  Streams.minBy (a :: xs) f None = fold_left (Spec.by_key f) xs a.
Proof.
  intros H. apply Forall_cons_iff in H as [Ha Hxs].
  unfold Streams.minBy, Streams.reduce.
  cbn [Streams.reduce_loop strict_eq Streams.sorter_or_default].
  now apply reduce_loop_by_key.
Qed.

(** After an item whose key is NaN, the accumulator is that item. *)
Lemma fold_by_key_nan_last (before : list value) (l acc : value) :
  nan l = true -> fold_left (Spec.by_key f) (before ++ [l]) acc = l.
Proof.
  intros Hl. rewrite fold_left_app. cbn [fold_left].
  rewrite by_key_spec, Hl. now rewrite orb_true_r.
Qed.

(** While no key is NaN, the fold keeps the first item of least key. *)
Lemma fold_by_key_first_least (zs : list value) (a : value) :
  (forall w, In w (a :: zs) -> nan w = false) ->
  exists pre m post,
    a :: zs = pre ++ m :: post /\
    fold_left (Spec.by_key f) zs a = m /\
    (forall w, In w pre -> kz m < kz w) /\
    (forall w, In w post -> kz m <= kz w).
Proof.
  induction zs as [|z zs IH] using rev_ind; intros Hnan.
  - exists [], a, []. cbn. repeat split; tauto.
  - destruct IH as (pre & m & post & E & Hm & Hpre & Hpost).
    { intros w Hw. apply Hnan. cbn [In] in *. rewrite in_app_iff. tauto. }
    assert (Hnm : nan m = false).
    { apply Hnan. rewrite app_comm_cons, E, !in_app_iff. cbn [In]. tauto. }
    assert (Hnz : nan z = false).
    { apply Hnan. rewrite app_comm_cons, !in_app_iff. cbn [In]. tauto. }
    rewrite fold_left_app. cbn [fold_left].
    rewrite Hm, by_key_spec, Hnm, Hnz. cbn [orb].
    destruct (Z.leb_spec (kz m) (kz z)).
    + exists pre, m, (post ++ [z]).
      split; [now rewrite app_comm_cons, E, <- app_assoc|].
      split; [reflexivity|]. split; [exact Hpre|].
      intros w Hw. apply in_app_or in Hw as [Hw|[<-|[]]]; [now apply Hpost | lia].
    + exists (a :: zs), z, [].
      split; [now rewrite app_comm_cons|].
      split; [reflexivity|]. split; [|intros w []].
      intros w Hw. rewrite E in Hw.
      apply in_app_or in Hw as [Hw|[<-|Hw]].
      * specialize (Hpre w Hw). lia.
      * lia.
      * specialize (Hpost w Hw). lia.
Qed.

End MinBy.

(** X23.  Over a sequence without [undefined] items whose keys are
    numbers, with the default comparator.  When the key of the last item
    is NaN, [minBy] returns the last item.  Otherwise it looks at the
    items that come after the last item whose key is NaN -- at all items
    when no key is NaN -- and returns the first of them whose key is
    least: those before it have greater keys, those after it keys that
    are not smaller. *)
Theorem minBy_first_least :
  forall (kz : value -> Z) (nan : value -> bool) (f : value -> value),
    (forall v, f v = if nan v then VNaN else VNum (kz v)) ->
    (forall (before : list value) (l : value),
        Forall (fun v => v <> VUndefined) (before ++ [l]) ->
        nan l = true ->
        Streams.minBy (before ++ [l]) f None = l) /\
    (forall (before : list value) (a : value) (zs : list value),
        Forall (fun v => v <> VUndefined) (before ++ a :: zs) ->
        (before = [] \/ exists b l, before = b ++ [l] /\ nan l = true) ->
        (forall w, In w (a :: zs) -> nan w = false) ->
        exists pre m post,
          a :: zs = pre ++ m :: post /\
          Streams.minBy (before ++ a :: zs) f None = m /\
          (forall w, In w pre -> kz m < kz w) /\
          (forall w, In w post -> kz m <= kz w)).
Proof.
  intros kz nan f Hf.
  assert (Hlast : forall (before : list value) (l : value),
             Forall (fun v => v <> VUndefined) (before ++ [l]) ->
             nan l = true ->
             Streams.minBy (before ++ [l]) f None = l).
  { intros before l Hdef Hl. destruct before as [|x before].
    - reflexivity.
    - cbn [app] in *. rewrite minBy_fold by assumption.
      now apply (fold_by_key_nan_last kz nan f Hf). }
  split; [exact Hlast|].
  intros before a zs Hdef Hbefore Hnan.
  destruct (fold_by_key_first_least kz nan f Hf zs a Hnan)
    as (pre & m & post & E & Hm & Hpre & Hpost).
  exists pre, m, post. split; [exact E|]. split; [|split; assumption].
  destruct Hbefore as [->|(b & l & -> & Hl)].
  - cbn [app] in *. now rewrite minBy_fold.
  - assert (Hbl : Forall (fun v => v <> VUndefined) (b ++ [l])).
    { rewrite <- app_assoc in Hdef. cbn [app] in Hdef.
      apply Forall_app in Hdef as [Hb Hrest].
      apply Forall_cons_iff in Hrest as [Hl' _].
      apply Forall_app. split; [exact Hb | now constructor]. }
    specialize (Hlast b l Hbl Hl).
    destruct (b ++ [l]) as [|x bl] eqn:Ebl; [now destruct b|].
    cbn [app] in *. rewrite minBy_fold in * by assumption.
    rewrite fold_left_app, Hlast. cbn [fold_left].
    rewrite (by_key_spec kz nan f Hf), Hl. cbn [orb]. exact Hm.
Qed.

Lemma minBy_first_least_witness :
  exists pre m post,
    [VNum 3; VNum (-1); VNum 1; VNum 2] = pre ++ m :: post /\
    Streams.minBy
      ([VNum 5; VNaN] ++ [VNum 3; VNum (-1); VNum 1; VNum 2])
      (fun v => match v with VNum z => VNum (Z.abs z) | _ => VNaN end)
      None
    = m.
Proof.
  destruct (minBy_first_least
              (fun v => match v with VNum z => Z.abs z | _ => 0 end)
              (fun v => match v with VNum _ => false | _ => true end)
              (fun v => match v with VNum z => VNum (Z.abs z) | _ => VNaN end))
    as [_ H].
  { intros v. now destruct v. }
  destruct (H [VNum 5; VNaN] (VNum 3) [VNum (-1); VNum 1; VNum 2])
    as (pre & m & post & E & Hm & _).
  - repeat constructor; discriminate.
  - right. exists [VNum 5], VNaN. split; reflexivity.
  - intros w Hw. cbn [In] in Hw.
    destruct Hw as [<-|[<-|[<-|[<-|[]]]]]; reflexivity.
  - exists pre, m, post. split; [exact E | exact Hm].
Defined.

(** ** [reduce] with an initial value *)

(** X24.  With an initial value, and as long as the accumulator is never
    [undefined] while an item remains, [reduce] is the left fold of
    [fun] from the initial value; over the empty sequence it returns the
    initial value. *)
Theorem reduce_from_initial :
  forall (f : value -> value -> value) (initial : value) (xs : list value),
    Spec.defined_along f initial xs = true ->
    Streams.reduce xs f initial = fold_left f xs initial /\
    Streams.reduce [] f initial = initial.
Proof.
  intros f initial xs H. split; [|reflexivity].
  unfold Streams.reduce. revert initial H.
  induction xs as [|x xs IH]; intros acc H; [reflexivity|].
  cbn [Spec.defined_along] in H. apply andb_prop in H as [Hacc Hrest].
  unfold strict_neq in Hacc. apply negb_true_iff in Hacc.
  cbn [Streams.reduce_loop fold_left]. rewrite Hacc. now apply IH.
Qed.

Lemma reduce_from_initial_witness :
  Spec.defined_along Spec.plus (VNum 0) [VNum 1; VNum 2; VNum 3] = true /\
  Streams.reduce [VNum 1; VNum 2; VNum 3] Spec.plus (VNum 0) = VNum 6.
Proof.
  split; [reflexivity|].
  destruct (reduce_from_initial Spec.plus (VNum 0) [VNum 1; VNum 2; VNum 3] eq_refl)
    as [H _].
  exact H.
Defined.

(** ** [all] and [any], [take] and [drop] *)

(** X25.  [all] is true exactly when [fun] is truthy on every item, [any]
    exactly when it is truthy on some item; the two files agree on both. *)
Theorem all_any_meaning :
  forall (T : Type) (xs : list T) (f : T -> value),
    (Streams.all xs f = true <-> forall x, In x xs -> truthy (f x) = true) /\
    (Streams.any xs f = true <-> exists x, In x xs /\ truthy (f x) = true) /\
    Lists.all xs f = Streams.all xs f /\
    Lists.any xs f = Streams.any xs f.
Proof.
  intros T xs f.
  rewrite streams_all_forallb, streams_any_existsb.
  rewrite lists_all_forallb, lists_any_existsb.
  rewrite forallb_forall, existsb_exists. repeat split; auto.
Qed.

(** X26.  [take] yields the first [n] items (all of them when there are
    fewer, none when [n <= 0]) and [drop] the items after them; dropping
    twice drops the sum, and taking twice takes the smaller number. *)
Theorem take_drop_compose :
  forall (T : Type) (xs : list T) (a b : Z),
    0 <= a -> 0 <= b ->
    Streams.take xs a = firstn (Z.to_nat a) xs /\
    Streams.drop xs a = skipn (Z.to_nat a) xs /\
    Streams.drop (Streams.drop xs a) b = Streams.drop xs (a + b) /\
    Streams.take (Streams.take xs a) b = Streams.take xs (Z.min a b).
Proof.
  intros T xs a b Ha Hb.
  rewrite !take_firstn, !drop_skipn. repeat split.
  - rewrite skipn_skipn. f_equal. lia.
  - rewrite firstn_firstn. f_equal. lia.
Qed.

Lemma take_drop_compose_witness :
  Streams.drop (Streams.drop [1; 2; 3; 4; 5] 1) 2 = Streams.drop [1; 2; 3; 4; 5] (1 + 2) /\
  Streams.take (Streams.take [1; 2; 3; 4; 5] 1) 2 = Streams.take [1; 2; 3; 4; 5] (Z.min 1 2).
Proof.
  destruct (take_drop_compose Z [1; 2; 3; 4; 5] 1 2) as (_ & _ & Hd & Ht); [lia | lia |].
  split; [exact Hd | exact Ht].
Defined.

(** ** [chunkEvery] of [lists.js] *)

(** X27.  With [0 < step <= count], [chunkEvery] of [lists.js] ends
    without an error and yields the chunks that [chunkEvery] of
    [streams.ts] yields, in the same order; so it does when [step] is
    left out. *)
Theorem lists_chunkEvery_agrees :
  forall (T : Type) (xs : list T) (count step : Z),
    0 < step <= count ->
    Lists.chunkEvery xs count (Some step)
    = (Streams.chunkEvery xs count (Some step), None) /\
    Lists.chunkEvery xs count None = (Streams.chunkEvery xs count None, None).
Proof.
  intros T xs count step H. split.
  - now apply lists_chunkEvery_streams.
  - apply (lists_chunkEvery_streams xs count count). lia.
Qed.

Lemma lists_chunkEvery_agrees_witness :
  Lists.chunkEvery [1; 2; 3; 4; 5] 3 (Some 2)
  = (Streams.chunkEvery [1; 2; 3; 4; 5] 3 (Some 2), None).
Proof.
  apply (lists_chunkEvery_agrees Z [1; 2; 3; 4; 5] 3 2). lia.
Defined.

Lemma divides_small (step : Z) (i : nat) :
  (0 < i)%nat -> Z.of_nat i < step -> divides step i = false.
Proof.
  intros Hi Hs. apply (divides_gap step 0 i); try lia.
  apply divides_origin. lia.
Qed.

(** While the first window fills up, with [step > count]. *)
Lemma lists_chunk_loop_gap {T : Type} (c : nat) (step : Z) :
  Z.of_nat c < step ->
  forall (q w : list T),
    (0 < length w < c)%nat ->
    (c - length w < length q)%nat ->
    Lists.chunk_loop (Z.of_nat c) step [w] (length w) q
    = ([w ++ firstn (c - length w) q], Some TypeError).
Proof.
  intros Hstep. induction q as [|x q IH]; intros w Hw Hq; [cbn in Hq; lia|].
  cbn [Lists.chunk_loop].
  rewrite (divides_small step (length w)) by lia.
  cbn [push_all List.map last_window length Nat.sub nth_error removelast].
  rewrite length_app. cbn [length].
  destruct (Z.eqb_spec (Z.of_nat (length w + 1)) (Z.of_nat c)) as [E|E].
  - (* the window is full; the next item finds no window *)
    destruct q as [|y q]; [cbn in Hq; lia|].
    cbn [Lists.chunk_loop].
    rewrite (divides_small step (S (length w))) by lia.
    cbn [push_all List.map last_window].
    replace (c - length w)%nat with 1%nat by lia. reflexivity.
  - specialize (IH (w ++ [x])). rewrite length_app in IH. cbn [length] in IH.
    replace (length w + 1)%nat with (S (length w)) in * by lia.
    rewrite IH by (cbn [length] in Hq; lia).
    replace (c - length w)%nat with (S (c - S (length w))) by lia.
    cbn [firstn]. now rewrite <- app_assoc.
Qed.

(** X28.  With [0 < count < step] and more than [count] items,
    [chunkEvery] of [lists.js] yields the first [count] items as one
    chunk and then throws a TypeError, at the first item that falls
    between two windows. *)
Theorem lists_chunkEvery_throws_in_gap :
  forall (T : Type) (xs : list T) (count step : Z),
    0 < count < step ->
    count < Z.of_nat (length xs) ->
    Lists.chunkEvery xs count (Some step)
    = ([firstn (Z.to_nat count) xs], Some TypeError).
Proof.
  intros T xs count step Hcs Hlen.
  set (c := Z.to_nat count) in *.
  replace count with (Z.of_nat c) in * by lia.
  unfold Lists.chunkEvery.
  destruct xs as [|x q]; [cbn in Hlen; lia|].
  cbn [Lists.chunk_loop].
  rewrite divides_origin by lia.
  cbn [push_all List.map app last_window length Nat.sub nth_error removelast].
  destruct (Z.eqb_spec (Z.of_nat 1) (Z.of_nat c)) as [E|E].
  - destruct q as [|y q]; [cbn in Hlen; lia|].
    cbn [Lists.chunk_loop].
    rewrite (divides_small step 1) by lia.
    cbn [push_all List.map last_window].
    replace c with 1%nat by lia. reflexivity.
  - pose proof (lists_chunk_loop_gap c step ltac:(lia) q [x]) as H.
    cbn [length] in H. rewrite H by (cbn [length] in Hlen; lia).
    replace c with (S (c - 1)) at 2 by lia. reflexivity.
Qed.

Lemma lists_chunkEvery_throws_in_gap_witness :
  Lists.chunkEvery [1; 2; 3; 4; 5] 2 (Some 4) = ([firstn (Z.to_nat 2) [1; 2; 3; 4; 5]],
                                                 Some TypeError).
Proof.
  apply (lists_chunkEvery_throws_in_gap Z [1; 2; 3; 4; 5] 2 4); cbn; lia.
Defined.

(** ** The chunks of [chunkEvery] are windows of the input *)

(** X7.  For [count > 0], the chunks [chunkEvery] yields are exactly the
    windows of the input that start at a position divisible by [step]
    ([count] when [step] is left out): up to [count] consecutive items
    from there. *)
Theorem chunkEvery_chunks_are_windows :
  forall (T : Type) (xs : list T) (count : Z) (step : option Z) (w : list T),
    0 < count ->
    let s := match step with Some s => s | None => count end in
    In w (Streams.chunkEvery xs count step) <->
    exists o,
      (o < length xs)%nat /\ divides s o = true /\
      w = firstn (Z.to_nat count) (skipn o xs).
Proof.
  intros T xs count step w Hcount s.
  set (c := Z.to_nat count). assert (Hc : (0 < c)%nat) by lia.
  rewrite (chunkEvery_shape xs count step Hcount). cbv zeta. fold s c.
  rewrite in_app_iff, !in_map_iff.
  rewrite full_starts_interval, partial_starts_interval by assumption.
  split.
  - intros [(o & <- & Ho)|(o & <- & Ho)];
      [|apply in_rev in Ho]; apply starts_in in Ho; exists o;
      (split; [lia|]); (split; [tauto | reflexivity]).
  - intros (o & Ho & Hdiv & ->).
    destruct (Nat.lt_ge_cases o (length xs + 1 - c)); [left | right];
      exists o; (split; [reflexivity|]); [|apply -> in_rev];
      apply starts_in; (split; [lia | assumption]).
Qed.

Lemma chunkEvery_chunks_are_windows_witness :
  0 < 3 /\
  (In [3; 4; 5] (Streams.chunkEvery [1; 2; 3; 4; 5] 3 (Some 2)) <->
   exists o,
     (o < length [1; 2; 3; 4; 5])%nat /\ divides 2 o = true /\
     [3; 4; 5] = firstn (Z.to_nat 3) (skipn o [1; 2; 3; 4; 5])).
Proof.
  split; [lia|].
  apply (chunkEvery_chunks_are_windows Z [1; 2; 3; 4; 5] 3 (Some 2) [3; 4; 5]). lia.
Defined.

(** ** What the short-circuiting consumers ask of their source *)

Section PullConsumers.
Context {T : Type}.

Lemma filter_next_loop_stops (f : T -> value) (xs : list T) :
  forall r,
    let skipped := Spec.leading (fun x => negb (truthy (f x))) xs in
    Pull.filter_next_loop f xs r
    = (hd_error (Streams.filter xs f),
       {| Pull.pending := skipn (S (length skipped)) xs;
          Pull.requests := (r + S (length skipped))%nat |}).
Proof.
  induction xs as [|x xs IH]; intros r;
    cbn [Pull.filter_next_loop Spec.leading Streams.filter].
  - cbn. do 2 f_equal. lia.
  - destruct (truthy (f x)); cbn [negb length skipn hd_error].
    + do 2 f_equal. lia.
    + rewrite IH. cbv zeta. do 2 f_equal. lia.
Qed.

Lemma find_loop_stops (f : T -> value) (d : T) (xs : list T) :
  forall r,
    let skipped := Spec.leading (fun x => negb (truthy (f x))) xs in
    Pull.find_loop f d xs r
    = (Streams.find xs f d,
       {| Pull.pending := skipn (S (length skipped)) xs;
          Pull.requests := (r + S (length skipped))%nat |}).
Proof.
  induction xs as [|x xs IH]; intros r;
    cbn [Pull.find_loop Spec.leading Streams.find].
  - cbn. do 2 f_equal. lia.
  - destruct (truthy (f x)); cbn [negb length skipn].
    + do 2 f_equal. lia.
    + rewrite IH. cbv zeta. do 2 f_equal. lia.
Qed.

End PullConsumers.

(** X29.  [any] asks its source for the leading items on which [fun] is
    falsy and for one more -- the first truthy item, or the end of the
    source -- and for nothing after that; [all] does the same with the
    leading items on which [fun] is truthy.  Their answers are those of
    the loops over the whole sequence. *)
Theorem any_all_stop_early :
  forall (T : Type) (xs : list T) (r : nat) (f : T -> value),
    let falsy := Spec.leading (fun x => negb (truthy (f x))) xs in
    let truthy_ := Spec.leading (fun x => truthy (f x)) xs in
    Pull.any {| Pull.pending := xs; Pull.requests := r |} f
    = (Streams.any xs f,
       {| Pull.pending := skipn (S (length falsy)) xs;
          Pull.requests := (r + S (length falsy))%nat |}) /\
    Pull.all {| Pull.pending := xs; Pull.requests := r |} f
    = (Streams.all xs f,
       {| Pull.pending := skipn (S (length truthy_)) xs;
          Pull.requests := (r + S (length truthy_))%nat |}).
Proof.
  intros T xs r f falsy truthy_. unfold Pull.any, Pull.all, Pull.filter_next.
  cbn [Pull.pending Pull.requests]. rewrite !filter_next_loop_stops. cbv zeta.
  split.
  - unfold Streams.any. fold falsy.
    destruct (Streams.filter xs f); reflexivity.
  - unfold Streams.all, Streams.reject.
    replace (Spec.leading
               (fun x => negb (truthy (VBool (negb (truthy (f x)))))) xs)
      with truthy_.
    + destruct (Streams.filter xs _); reflexivity.
    + unfold truthy_. clear. induction xs as [|x xs IH]; [reflexivity|].
      cbn [Spec.leading truthy]. rewrite negb_involutive, IH. reflexivity.
Qed.

(** X30.  [find] asks its source for the leading items on which [fun] is
    falsy and for one more, and returns what the loop over the whole
    sequence returns. *)
Theorem find_stops_early :
  forall (T : Type) (xs : list T) (r : nat) (f : T -> value) (d : T),
    let falsy := Spec.leading (fun x => negb (truthy (f x))) xs in
    Pull.find {| Pull.pending := xs; Pull.requests := r |} f d
    = (Streams.find xs f d,
       {| Pull.pending := skipn (S (length falsy)) xs;
          Pull.requests := (r + S (length falsy))%nat |}).
Proof.
  intros T xs r f d falsy. unfold Pull.find. cbn [Pull.pending Pull.requests].
  apply find_loop_stops.
Qed.
